(** * GTpo observers and the graph topology they watch

  Shallow embedding of [src/gtpo/observer.h] (classes [gtpo::observer] and
  [gtpo::node_observer]) together with a model of the graph container and
  of the observable-node fan-out that drive these observers. *)

From stdpp Require Import gmap strings list.

Set Default Proof Using "Type".

(** ** [gtpo::observer<target_t>] *)

Module Observer.

Section observer.
(** [target_t*] is modelled as [option target_t]: [None] is [nullptr]. *)
Context {target_t : Type}.

(** Data members, with their default member initialisers:
    [_target = nullptr], [_name] empty, [_enabled = true]. *)
Record observer := mk_observer {
  _target : option target_t;
  _name : string;
  _enabled : bool
}.

(** [observer() noexcept { }]: every member takes its default initialiser. *)
Definition observer_new : observer :=
  {| _target := None; _name := EmptyString; _enabled := true |}.



(** [operator=(const observer& rhs)] and [operator=(observer&& rhs)], both
    defaulted: every member of [this] is overwritten with that of [rhs]. *)
Definition assign (rhs : observer) (this : observer) : observer :=
  {| _target := _target rhs; _name := _name rhs; _enabled := _enabled rhs |}.

Definition get_target (this : observer) : option target_t := _target this.

Definition set_target (target : option target_t) (this : observer) : observer :=
  {| _target := target; _name := _name this; _enabled := _enabled this |}.

Definition getName (this : observer) : string := _name this.

Definition setName (name : string) (this : observer) : observer :=
  {| _target := _target this; _name := name; _enabled := _enabled this |}.

Definition enable (this : observer) : observer :=
  {| _target := _target this; _name := _name this; _enabled := true |}.

Definition disable (this : observer) : observer :=
  {| _target := _target this; _name := _name this; _enabled := false |}.

Definition isEnabled (this : observer) : bool := _enabled this.

(** The four setters, as a call alphabet. *)
Inductive method :=
| call_set_target (target : option target_t)
| call_setName (name : string)
| call_enable
| call_disable.

Definition invoke (this : observer) (m : method) : observer :=
  match m with
  | call_set_target t => set_target t this
  | call_setName s => setName s this
  | call_enable => enable this
  | call_disable => disable this
  end.

Definition invoke_all (this : observer) (ms : list method) : observer :=
  foldl invoke this ms.

Definition is_disable (m : method) : bool :=
  match m with call_disable => true | _ => false end.

Definition is_set_target (m : method) : bool :=
  match m with call_set_target _ => true | _ => false end.

Definition is_setName (m : method) : bool :=
  match m with call_setName _ => true | _ => false end.

(** Everything the class offers that writes an observer: the four setters
    and the two assignment operators. *)
Inductive operation :=
| via_method (m : method)
| via_assign (rhs : observer).

Definition execute (this : observer) (op : operation) : observer :=
  match op with
  | via_method m => invoke this m
  | via_assign rhs => assign rhs this
  end.

Definition execute_all (this : observer) (ops : list operation) : observer :=
  foldl execute this ops.


Definition calls_disable (op : operation) : bool :=
  match op with via_method m => is_disable m | via_assign _ => false end.

Definition calls_set_target (op : operation) : bool :=
  match op with via_method m => is_set_target m | via_assign _ => false end.

Definition calls_setName (op : operation) : bool :=
  match op with via_method m => is_setName m | via_assign _ => false end.


(** An operation that cannot make the target non-null: anything but
    [set_target] and the assignment of an observer with a target. *)
Definition keeps_target_null (op : operation) : Prop :=
  match op with
  | via_method m => is_set_target m = false
  | via_assign rhs => get_target rhs = None
  end.

(** An operation that cannot make the name non-empty: anything but
    [setName] and the assignment of a named observer. *)
Definition keeps_name_empty (op : operation) : Prop :=
  match op with
  | via_method m => is_setName m = false
  | via_assign rhs => getName rhs = EmptyString
  end.
End observer.

Global Arguments observer : clear implicits.
Global Arguments method : clear implicits.
Global Arguments operation : clear implicits.

End Observer.

(** ** [gtpo::node_observer<node_t, edge_t>] *)

Module NodeObserver.
Import Observer.

Section node_observer.
Context {node_t edge_t : Type}.

(** What a hook can reach: the observer itself ([this]) and its reference
    parameters.  The hooks with edge context take [node_t& target],
    [node_t& weakInNode] (or [weakOutNode]) and [const edge_t& edge]; the
    final hooks take [node_t& target] only. *)
Record frame3 := mk_frame3 {
  this3 : observer node_t;
  target3 : node_t;
  weakNode3 : node_t;
  edge3 : edge_t
}.

Record frame1 := mk_frame1 {
  this1 : observer node_t;
  target1 : node_t
}.

(** [static_cast<void>(x);] evaluates [x] and discards the value. *)
Definition static_cast_void {A S : Type} (x : A) (s : S) : S := s.

(** The six virtual member functions, with their bodies from the class.
    C++ overloads [on_in_node_removed] and [on_out_node_removed] on arity;
    the one-parameter overloads carry the suffix [1] here. *)
Definition on_in_node_inserted (fr : frame3) : frame3 :=
  let fr := static_cast_void (target3 fr) fr in
  let fr := static_cast_void (weakNode3 fr) fr in
  static_cast_void (edge3 fr) fr.

Definition on_in_node_removed (fr : frame3) : frame3 :=
  let fr := static_cast_void (target3 fr) fr in
  let fr := static_cast_void (weakNode3 fr) fr in
  static_cast_void (edge3 fr) fr.

Definition on_in_node_removed1 (fr : frame1) : frame1 :=
  static_cast_void (target1 fr) fr.

Definition on_out_node_inserted (fr : frame3) : frame3 :=
  let fr := static_cast_void (target3 fr) fr in
  let fr := static_cast_void (weakNode3 fr) fr in
  static_cast_void (edge3 fr) fr.

Definition on_out_node_removed (fr : frame3) : frame3 :=
  let fr := static_cast_void (target3 fr) fr in
  let fr := static_cast_void (weakNode3 fr) fr in
  static_cast_void (edge3 fr) fr.

Definition on_out_node_removed1 (fr : frame1) : frame1 :=
  static_cast_void (target1 fr) fr.

(** The slots of the virtual table, in declaration order. *)
Inductive hook :=
| slot_on_in_node_inserted
| slot_on_in_node_removed
| slot_on_in_node_removed1
| slot_on_out_node_inserted
| slot_on_out_node_removed
| slot_on_out_node_removed1.

Definition hooks : list hook :=
  [ slot_on_in_node_inserted; slot_on_in_node_removed; slot_on_in_node_removed1;
    slot_on_out_node_inserted; slot_on_out_node_removed; slot_on_out_node_removed1 ].

(** Whether the hook receives the edge and the node at its other end. *)
Definition has_edge_context (h : hook) : bool :=
  match h with
  | slot_on_in_node_removed1 | slot_on_out_node_removed1 => false
  | _ => true
  end.

Inductive side := in_side | out_side.

Definition hook_side (h : hook) : side :=
  match h with
  | slot_on_in_node_inserted | slot_on_in_node_removed | slot_on_in_node_removed1 => in_side
  | _ => out_side
  end.

Definition frame (h : hook) : Type :=
  match h with
  | slot_on_in_node_removed1 | slot_on_out_node_removed1 => frame1
  | _ => frame3
  end.

Definition base_body (h : hook) : frame h → frame h :=
  match h with
  | slot_on_in_node_inserted => on_in_node_inserted
  | slot_on_in_node_removed => on_in_node_removed
  | slot_on_in_node_removed1 => on_in_node_removed1
  | slot_on_out_node_inserted => on_out_node_inserted
  | slot_on_out_node_removed => on_out_node_removed
  | slot_on_out_node_removed1 => on_out_node_removed1
  end.

(** A concrete observer class derives from [node_observer] and overrides
    some of the virtuals; a slot it leaves alone holds the base body. *)
Record derived := mk_derived {
  overrides : ∀ h : hook, option (frame h → frame h)
}.

Definition dispatch (cls : derived) (h : hook) : frame h → frame h :=
  match overrides cls h with
  | Some body => body
  | None => base_body h
  end.

(** [node_observer() noexcept : observer<node_t>{} { }]; the copy and move
    constructors and assignments are deleted, so this is the only way a
    node observer comes to exist. *)
Definition node_observer_new : observer node_t := observer_new.

(** The observer part and the node part of a frame. *)
Definition frame_this (h : hook) : frame h → observer node_t :=
  match h with
  | slot_on_in_node_removed1 | slot_on_out_node_removed1 => this1
  | _ => this3
  end.

Definition frame_target (h : hook) : frame h → node_t :=
  match h with
  | slot_on_in_node_removed1 | slot_on_out_node_removed1 => target1
  | _ => target3
  end.
End node_observer.

Global Arguments frame3 : clear implicits.
Global Arguments frame1 : clear implicits.
Global Arguments frame : clear implicits.
Global Arguments derived : clear implicits.

Global Instance hook_eq_dec : EqDecision hook.
Proof. solve_decision. Defined.

Global Instance side_eq_dec : EqDecision side.
Proof. solve_decision. Defined.

(** The interface offers exactly [n] hooks when they can be listed,
    without repetition, in a list of length [n]. *)
Definition hook_count (n : nat) : Prop :=
  ∃ l : list hook, NoDup l ∧ (∀ h, h ∈ l) ∧ length l = n.

(** An observer class that overrides [on_in_node_inserted] only (it renames
    the observer); the five other slots keep the base bodies. *)
Definition renaming_observer : derived nat nat :=
  mk_derived (node_t := nat) (edge_t := nat) (λ h,
    match h return option (frame nat nat h → frame nat nat h) with
    | slot_on_in_node_inserted =>
        Some (λ fr, mk_frame3
                      (setName "seen" (this3 fr))
                      (target3 fr) (weakNode3 fr)
                      (edge3 fr))
    | _ => None
    end).

End NodeObserver.

(** ** Graph container and observable-node fan-out

    [observer.h] includes [observable.h] and is used by the graph container;
    neither is among the sources, so this part follows the specification
    (sections 3, 4 and 7). *)

Module Graph.
Import Observer.

(** Stable handles of the entities and of the observers. *)
Abbreviation NodeRef := nat (only parsing).
Abbreviation EdgeRef := nat (only parsing).
Abbreviation GroupRef := nat (only parsing).
Abbreviation ObsRef := nat (only parsing).

(** Modelled from the spec: the error kinds of section 7 (the container
    that raises them is missing). *)
Inductive error :=
| NotFoundError
| InvalidEndpointError
| DuplicateAttachmentError.

Inductive result (A : Type) :=
| Ok (a : A)
| Err (e : error).
Global Arguments Ok {A} a.
Global Arguments Err {A} e.

(** Modelled from the spec: the six notification kinds the missing
    observable-node mixin fans out, named after the hooks of
    [node_observer], with their arguments; the suffix [1] marks the final
    overloads, which carry the target only. *)
Inductive notification :=
| on_in_node_inserted (target weakInNode : NodeRef) (e : EdgeRef)
| on_in_node_removed (target weakInNode : NodeRef) (e : EdgeRef)
| on_in_node_removed1 (target : NodeRef)
| on_out_node_inserted (target weakOutNode : NodeRef) (e : EdgeRef)
| on_out_node_removed (target weakOutNode : NodeRef) (e : EdgeRef)
| on_out_node_removed1 (target : NodeRef).

(** Modelled from the spec: a Node-Observer attached to a node (the
    observable-node mixin of [observable.h] is not among the sources).
    [handle] is the identity of the observer object, [base] its
    [gtpo::observer] part. *)
Record node_observer := mk_node_observer {
  handle : ObsRef;
  base : observer NodeRef
}.

(** Modelled from the spec: Node (section 3): in- and out-edges in order,
    optional group back-reference, observers in attachment order. *)
Record node := mk_node {
  in_edges : list EdgeRef;
  out_edges : list EdgeRef;
  group : option GroupRef;
  observers : list node_observer
}.

(** Modelled from the spec: Edge (section 3): one source, one destination. *)
Record edge := mk_edge {
  source : NodeRef;
  destination : NodeRef
}.

(** Modelled from the spec: the Graph container (section 4.1) owns every
    node, edge and group; handles are never reused. *)
Record graph := mk_graph {
  nodes : gmap NodeRef node;
  edges : gmap EdgeRef edge;
  groups : gmap GroupRef (gset NodeRef);
  next_node : NodeRef;
  next_edge : EdgeRef;
  next_group : GroupRef
}.

Definition empty_graph : graph :=
  {| nodes := ∅; edges := ∅; groups := ∅;
     next_node := 0; next_edge := 0; next_group := 0 |}.

(** Modelled from the spec: one callback delivered by the missing mixin:
    which observer, which notification, and the container as the callback
    can query it at that moment. *)
Record call := mk_call {
  callee : ObsRef;
  note : notification;
  view : graph
}.

(** *** The effect of a container operation
    An operation reads and writes the container, appends to the sequence of
    delivered callbacks, and returns a value or a typed failure; a failure
    ends the operation where it occurs. *)
Definition M (A : Type) : Type := graph → result A * graph * list call.

Definition ret {A} (a : A) : M A := λ g, (Ok a, g, []).

Definition throw {A} (e : error) : M A := λ g, (Err e, g, []).

Definition bind {A B} (m : M A) (k : A → M B) : M B := λ g,
  match m g with
  | (Ok a, g1, t1) => let '(r, g2, t2) := k a g1 in (r, g2, t1 ++ t2)
  | (Err e, g1, t1) => (Err e, g1, t1)
  end.

Definition get : M graph := λ g, (Ok g, g, []).

Definition modify (f : graph → graph) : M unit := λ g, (Ok tt, f g, []).

Notation "'let*' x ':=' m 'in' k" := (bind m (λ x, k))
  (at level 10, x name, m at level 100, k at level 200).

Definition set_nodes (f : gmap NodeRef node → gmap NodeRef node) (g : graph) : graph :=
  {| nodes := f (nodes g); edges := edges g; groups := groups g;
     next_node := next_node g; next_edge := next_edge g; next_group := next_group g |}.

Definition set_edges (f : gmap EdgeRef edge → gmap EdgeRef edge) (g : graph) : graph :=
  {| nodes := nodes g; edges := f (edges g); groups := groups g;
     next_node := next_node g; next_edge := next_edge g; next_group := next_group g |}.

Definition set_groups (f : gmap GroupRef (gset NodeRef) → gmap GroupRef (gset NodeRef))
    (g : graph) : graph :=
  {| nodes := nodes g; edges := edges g; groups := f (groups g);
     next_node := next_node g; next_edge := next_edge g; next_group := next_group g |}.

Definition with_in_edges (f : list EdgeRef → list EdgeRef) (nd : node) : node :=
  {| in_edges := f (in_edges nd); out_edges := out_edges nd;
     group := group nd; observers := observers nd |}.

Definition with_out_edges (f : list EdgeRef → list EdgeRef) (nd : node) : node :=
  {| in_edges := in_edges nd; out_edges := f (out_edges nd);
     group := group nd; observers := observers nd |}.

Definition with_group (gr : option GroupRef) (nd : node) : node :=
  {| in_edges := in_edges nd; out_edges := out_edges nd;
     group := gr; observers := observers nd |}.

Definition with_observers (f : list node_observer → list node_observer) (nd : node) : node :=
  {| in_edges := in_edges nd; out_edges := out_edges nd;
     group := group nd; observers := f (observers nd) |}.

(** Query API: a node's adjacency, group and observers ([[]] / [None] for a
    handle that is not a member). *)
Definition in_edges_of (g : graph) (n : NodeRef) : list EdgeRef :=
  match nodes g !! n with Some nd => in_edges nd | None => [] end.

Definition out_edges_of (g : graph) (n : NodeRef) : list EdgeRef :=
  match nodes g !! n with Some nd => out_edges nd | None => [] end.

Definition group_of (g : graph) (n : NodeRef) : option GroupRef :=
  match nodes g !! n with Some nd => group nd | None => None end.

Definition observers_of (g : graph) (n : NodeRef) : list node_observer :=
  match nodes g !! n with Some nd => observers nd | None => [] end.

(** *** Observable-node mixin (section 4.2) *)

(** Modelled from the spec: fan-out walks the observer collection in
    attachment order and invokes the callback on the enabled observers only. *)
Fixpoint fan_out (obs : list node_observer) (k : notification) (v : graph) : list call :=
  match obs with
  | [] => []
  | o :: rest =>
      if isEnabled (base o)
      then {| callee := handle o; note := k; view := v |} :: fan_out rest k v
      else fan_out rest k v
  end.

Definition notify (n : NodeRef) (k : notification) : M unit := λ g,
  (Ok tt, g, fan_out (observers_of g n) k g).

(** Modelled from the spec: [attach(observer)] appends the observer to the
    node's collection and sets its target back-reference to the node. *)
Definition attach_observer (n : NodeRef) (o : node_observer) : M unit :=
  let* g := get in
  match nodes g !! n with
  | None => throw NotFoundError
  | Some _ =>
      let o' := {| handle := handle o; base := set_target (Some n) (base o) |} in
      modify (set_nodes (alter (with_observers (λ obs, obs ++ [o'])) n))
  end.

(** Modelled from the spec: [detach(observer)] removes it from the collection. *)
Definition detach_observer (n : NodeRef) (h : ObsRef) : M unit :=
  let* g := get in
  match nodes g !! n with
  | None => throw NotFoundError
  | Some _ =>
      modify (set_nodes (alter (with_observers
        (filter (λ o, handle o ≠ h))) n))
  end.

Definition on_handle (f : observer NodeRef → observer NodeRef) (h : ObsRef)
    (o : node_observer) : node_observer :=
  if decide (handle o = h) then {| handle := handle o; base := f (base o) |} else o.

(** Modelled from the spec: [enable] / [disable] of the registration API
    (section 6), through the handle of an observer of node [n]; they apply
    the member functions of [gtpo::observer] to the attached observer. *)
Definition enable_observer (n : NodeRef) (h : ObsRef) : M unit :=
  let* g := get in
  match nodes g !! n with
  | None => throw NotFoundError
  | Some _ => modify (set_nodes (alter (with_observers (map (on_handle enable h))) n))
  end.

Definition disable_observer (n : NodeRef) (h : ObsRef) : M unit :=
  let* g := get in
  match nodes g !! n with
  | None => throw NotFoundError
  | Some _ => modify (set_nodes (alter (with_observers (map (on_handle disable h))) n))
  end.

(** *** Entity store (section 4.1) *)

(** Modelled from the spec: [insert_node] creates a node with empty
    adjacency and observer set; it always succeeds. *)
Definition insert_node : M NodeRef :=
  let* g := get in
  let n := next_node g in
  let* _ := modify (λ g,
    {| nodes := <[n := mk_node [] [] None []]> (nodes g); edges := edges g;
       groups := groups g; next_node := S n; next_edge := next_edge g;
       next_group := next_group g |}) in
  ret n.

(** Modelled from the spec: the container owns the groups; a new group has
    no members. *)
Definition insert_group : M GroupRef :=
  let* g := get in
  let gr := next_group g in
  let* _ := modify (λ g,
    {| nodes := nodes g; edges := edges g; groups := <[gr := ∅]> (groups g);
       next_node := next_node g; next_edge := next_edge g; next_group := S gr |}) in
  ret gr.

(** Modelled from the spec: the adjacency bookkeeping of an insertion in
    the missing container: the edge is stored and appended to [src]'s
    out-list and to [dst]'s in-list. *)
Definition attach_edge (e : EdgeRef) (src dst : NodeRef) (g : graph) : graph :=
  {| nodes := alter (with_in_edges (λ l, l ++ [e])) dst
                (alter (with_out_edges (λ l, l ++ [e])) src (nodes g));
     edges := <[e := mk_edge src dst]> (edges g);
     groups := groups g; next_node := next_node g; next_edge := S e;
     next_group := next_group g |}.

(** Modelled from the spec: [insert_edge(src, dst)]. *)
Definition insert_edge (src dst : NodeRef) : M EdgeRef :=
  let* g := get in
  match nodes g !! src, nodes g !! dst with
  | Some _, Some _ =>
      let e := next_edge g in
      let* _ := modify (attach_edge e src dst) in
      let* _ := notify src (on_out_node_inserted src dst e) in
      let* _ := notify dst (on_in_node_inserted dst src e) in
      ret e
  | _, _ => throw InvalidEndpointError
  end.

(** Modelled from the spec: the adjacency bookkeeping of a removal in the
    missing container: the edge leaves [src]'s
    out-list, [dst]'s in-list and the store. *)
Definition detach_edge (e : EdgeRef) (ed : edge) (g : graph) : graph :=
  {| nodes := alter (with_in_edges (filter (λ x, x ≠ e))) (destination ed)
                (alter (with_out_edges (filter (λ x, x ≠ e))) (source ed) (nodes g));
     edges := delete e (edges g);
     groups := groups g; next_node := next_node g; next_edge := next_edge g;
     next_group := next_group g |}.

(** Modelled from the spec: [remove_edge(EdgeRef)] and its notification
    protocol: edge-context callbacks, detachment, then final callbacks. *)
Definition remove_edge (e : EdgeRef) : M unit :=
  let* g := get in
  match edges g !! e with
  | None => throw NotFoundError
  | Some ed =>
      let src := source ed in
      let dst := destination ed in
      let* _ := notify src (on_out_node_removed src dst e) in
      let* _ := notify dst (on_in_node_removed dst src e) in
      let* _ := modify (detach_edge e ed) in
      let* _ := notify src (on_out_node_removed1 src) in
      notify dst (on_in_node_removed1 dst)
  end.

(** Modelled from the spec: the cascade of [remove_node], one
    [remove_edge] after the other. *)
Fixpoint remove_edges (es : list EdgeRef) : M unit :=
  match es with
  | [] => ret tt
  | e :: rest => let* _ := remove_edge e in remove_edges rest
  end.

(** Modelled from the spec: [remove_node_from_group] clears the node's group
    back-reference and the group's membership; the node stays. *)
Definition ungroup (n : NodeRef) (gr : GroupRef) (g : graph) : graph :=
  set_groups (alter (λ members, members ∖ {[n]}) gr)
    (set_nodes (alter (with_group None) n) g).

Definition remove_node_from_group (n : NodeRef) : M unit :=
  let* g := get in
  match nodes g !! n with
  | None => throw NotFoundError
  | Some nd =>
      match group nd with
      | None => ret tt
      | Some gr => modify (ungroup n gr)
      end
  end.

(** Modelled from the spec: [insert_node_into_group]; a node belongs to at
    most one group at a time, so it leaves its former group first. *)
Definition insert_node_into_group (n : NodeRef) (gr : GroupRef) : M unit :=
  let* g := get in
  match nodes g !! n, groups g !! gr with
  | Some _, Some _ =>
      let* _ := remove_node_from_group n in
      modify (λ g, set_groups (alter (λ members, {[n]} ∪ members) gr)
                     (set_nodes (alter (with_group (Some gr)) n) g))
  | _, _ => throw NotFoundError
  end.

(** Modelled from the spec: the edges touching a node ("in some
    deterministic order"), each once: its out-edges followed by its
    in-edges, an edge listed in both (a self-loop) taken at its in-list
    position. *)
Definition touching (nd : node) : list EdgeRef :=
  remove_dups (out_edges nd ++ in_edges nd).

(** Modelled from the spec: [remove_node(NodeRef)]: cascading edge removal,
    detachment from the group, then destruction. *)
Definition remove_node (n : NodeRef) : M unit :=
  let* g := get in
  match nodes g !! n with
  | None => throw NotFoundError
  | Some nd =>
      let* _ := remove_edges (touching nd) in
      let* _ := remove_node_from_group n in
      modify (set_nodes (delete n))
  end.

(** *** Sequences of operations *)

Inductive mutation :=
| do_insert_node
| do_remove_node (n : NodeRef)
| do_insert_edge (src dst : NodeRef)
| do_remove_edge (e : EdgeRef)
| do_insert_group
| do_insert_node_into_group (n : NodeRef) (gr : GroupRef)
| do_remove_node_from_group (n : NodeRef).

Inductive registration :=
| do_attach (n : NodeRef) (o : node_observer)
| do_detach (n : NodeRef) (h : ObsRef)
| do_enable (n : NodeRef) (h : ObsRef)
| do_disable (n : NodeRef) (h : ObsRef).

Inductive op :=
| mutate (m : mutation)
| register (r : registration).

Definition void {A} (m : M A) : M unit := let* _ := m in ret tt.

Definition mutation_sem (m : mutation) : M unit :=
  match m with
  | do_insert_node => void insert_node
  | do_remove_node n => remove_node n
  | do_insert_edge src dst => void (insert_edge src dst)
  | do_remove_edge e => remove_edge e
  | do_insert_group => void insert_group
  | do_insert_node_into_group n gr => insert_node_into_group n gr
  | do_remove_node_from_group n => remove_node_from_group n
  end.

Definition registration_sem (r : registration) : M unit :=
  match r with
  | do_attach n o => attach_observer n o
  | do_detach n h => detach_observer n h
  | do_enable n h => enable_observer n h
  | do_disable n h => disable_observer n h
  end.

Definition perform (o : op) : M unit :=
  match o with
  | mutate m => mutation_sem m
  | register r => registration_sem r
  end.

(** The caller issues the operations one after the other; a failure is
    reported to it and the next operation runs on the container as the
    failed one left it. *)
Definition exec_step (st : graph * list call) (o : op) : graph * list call :=
  let '(r, g', t') := perform o st.1 in (g', st.2 ++ t').

Definition exec (ops : list op) (g : graph) : graph * list call :=
  foldl exec_step (g, []) ops.

(** *** Vocabulary of the properties *)

Section vocabulary.
Implicit Types (g : graph) (n src dst : nat) (e : nat) (ed : edge).
Implicit Types (k : notification) (t : list call) (es : list nat).

Definition enabled (o : node_observer) : Prop := isEnabled (base o) = true.

Global Instance enabled_dec o : Decision (enabled o).
Proof. unfold enabled. apply _. Defined.

(** The callbacks of one edge removal: with edge context on the container
    before the detachment, final ones on the container after it. *)
Definition removal_calls e ed g : list call :=
  let g' := detach_edge e ed g in
  fan_out (observers_of g (source ed))
          (on_out_node_removed (source ed) (destination ed) e) g ++
  fan_out (observers_of g (destination ed))
          (on_in_node_removed (destination ed) (source ed) e) g ++
  fan_out (observers_of g' (source ed)) (on_out_node_removed1 (source ed)) g' ++
  fan_out (observers_of g' (destination ed))
          (on_in_node_removed1 (destination ed)) g'.

Definition insertion_calls e src dst g : list call :=
  let g' := attach_edge e src dst g in
  fan_out (observers_of g' src) (on_out_node_inserted src dst e) g' ++
  fan_out (observers_of g' dst) (on_in_node_inserted dst src e) g'.

(** Adjacency symmetry: an edge in a node's out-list has that node as its
    source, an edge in a node's in-list has it as its destination. *)
Definition adjacency_symmetry g : Prop :=
  (∀ n e, e ∈ out_edges_of g n → source <$> edges g !! e = Some n) ∧
  (∀ n e, e ∈ in_edges_of g n → destination <$> edges g !! e = Some n).

(** The consistency invariant of the container: adjacency symmetry, every
    stored edge listed at both of its endpoints, and handles below the
    counters they are drawn from. *)
Record wf g : Prop := mk_wf {
  wf_out : ∀ n e, e ∈ out_edges_of g n → source <$> edges g !! e = Some n;
  wf_in : ∀ n e, e ∈ in_edges_of g n → destination <$> edges g !! e = Some n;
  wf_source : ∀ e ed, edges g !! e = Some ed → e ∈ out_edges_of g (source ed);
  wf_destination : ∀ e ed,
    edges g !! e = Some ed → e ∈ in_edges_of g (destination ed);
  wf_next_node : ∀ n, is_Some (nodes g !! n) → n < next_node g;
  wf_next_edge : ∀ e, is_Some (edges g !! e) → e < next_edge g
}.

(** Steps that leave adjacency and the edge store alone. *)
Definition same_adjacency g g' : Prop :=
  (∀ n, out_edges_of g' n = out_edges_of g n) ∧
  (∀ n, in_edges_of g' n = in_edges_of g n) ∧
  edges g' = edges g ∧ next_edge g' = next_edge g.

(** Same members, same observers, same groups. *)
Definition same_population g g' : Prop :=
  (∀ n, observers_of g' n = observers_of g n) ∧
  (∀ n, group_of g' n = group_of g n) ∧
  (∀ n, is_Some (nodes g' !! n) ↔ is_Some (nodes g !! n)) ∧
  groups g' = groups g.

(** The protocol as the callers see it: who is called with what. *)
Definition signal (c : call) : nat * notification := (callee c, note c).

Definition deliveries g n k : list (nat * notification) :=
  (λ o, (handle o, k)) <$> filter enabled (observers_of g n).

Definition removal_protocol g e : list (nat * notification) :=
  match edges g !! e with
  | None => []
  | Some ed =>
      let s := source ed in
      let d := destination ed in
      deliveries g s (on_out_node_removed s d e) ++
      deliveries g d (on_in_node_removed d s e) ++
      deliveries g s (on_out_node_removed1 s) ++
      deliveries g d (on_in_node_removed1 d)
  end.

(** The container after a successful cascade over [es]. *)
Record cascaded es g g1 t : Prop := mk_cascaded {
  cas_wf : wf g1;
  cas_out : ∀ n, out_edges_of g1 n = filter (λ x, x ∉ es) (out_edges_of g n);
  cas_in : ∀ n, in_edges_of g1 n = filter (λ x, x ∉ es) (in_edges_of g n);
  cas_edges : ∀ e, edges g1 !! e = if decide (e ∈ es) then None else edges g !! e;
  cas_population : same_population g g1;
  cas_next_node : next_node g1 = next_node g;
  cas_signals : signal <$> t = es ≫= removal_protocol g;
  cas_views : Forall (λ c, same_population g (view c)) t
}.

(** [c] goes to an observer that is attached and enabled in [g]. *)
Definition audible g (c : call) : Prop :=
  ∃ n o, o ∈ observers_of g n ∧ enabled o ∧ callee c = handle o.
End vocabulary.

End Graph.

(** ** A small scene: two nodes, three observers, a group, two edges *)

Module Scene.
Import Observer Graph.

Definition watcher (h : nat) : node_observer :=
  mk_node_observer h NodeObserver.node_observer_new.

Definition muted (h : nat) : node_observer :=
  mk_node_observer h (disable NodeObserver.node_observer_new).

(** Nodes 0 and 1; observer 7 on node 0; observers 8 (disabled) and 9 on
    node 1; node 0 in group 0; edge 0 from 0 to 1 and the self-loop 1 on 0. *)
Definition script : list op :=
  [ mutate do_insert_node; mutate do_insert_node;
    register (do_attach 0 (watcher 7));
    register (do_attach 1 (muted 8));
    register (do_attach 1 (watcher 9));
    mutate do_insert_group;
    mutate (do_insert_node_into_group 0 0);
    mutate (do_insert_edge 0 1);
    mutate (do_insert_edge 0 0) ].

Definition scene : graph := (exec script empty_graph).1.

End Scene.

(** ** Call sequences on [gtpo::observer] *)

Module ObserverCalls.
Import Observer.

Section calls.
Context {target_t : Type}.

(** The data member a mutating call assigns. *)
Inductive member := member_target | member_name | member_enabled.

Definition assigns (m : method target_t) : member :=
  match m with
  | call_set_target _ => member_target
  | call_setName _ => member_name
  | call_enable | call_disable => member_enabled
  end.

(** The value a call assigns to [_target], [_name], [_enabled], if any. *)
Definition target_arg (m : method target_t) : option (option target_t) :=
  match m with call_set_target t => Some t | _ => None end.

Definition name_arg (m : method target_t) : option string :=
  match m with call_setName s => Some s | _ => None end.

Definition enabled_arg (m : method target_t) : option bool :=
  match m with
  | call_enable => Some true
  | call_disable => Some false
  | _ => None
  end.
End calls.

Global Instance member_eq_dec : EqDecision member.
Proof. solve_decision. Defined.

End ObserverCalls.

(** ** [qan::Group], the inline members of [qanGroup.h] *)

Module QanGroup.

(** The signals the class declares. *)
Inductive signal :=
| draggableChanged
| acceptDropsChanged
| labelChanged
| hilightDragChanged
| containerChanged
| nodeDragEnter
| nodeDragLeave.

Section group.
(** [Flag] stands for [QQuickItem::Flag], of which the class uses
    [QQuickItem::ItemAcceptsDrops]; [QQuickItem*] and [qan::Node*] are
    modelled as [option], [None] being the null pointer. *)
Context {Flag : Type} `{!EqDecision Flag, !Countable Flag}.
Context {QQuickItem Node : Type}.
Variable ItemAcceptsDrops : Flag.

(** The item flags of the [QQuickItem] base, the signals emitted so far
    (oldest first), and the data members of the class. *)
Record Group := mk_Group {
  flags : gset Flag;
  emitted : list signal;
  _draggable : bool;
  _acceptDrops : bool;
  _label : string;
  _hilightDrag : bool;
  _shadowDropNode : option Node;
  _container : option QQuickItem
}.

(** [emit sig( );] *)
Definition emit (sig : signal) (this : Group) : Group :=
  {| flags := flags this; emitted := emitted this ++ [sig];
     _draggable := _draggable this; _acceptDrops := _acceptDrops this;
     _label := _label this; _hilightDrag := _hilightDrag this;
     _shadowDropNode := _shadowDropNode this; _container := _container this |}.

(** [QQuickItem::setFlag(flag, enabled)] sets or clears the one flag. *)
Definition setFlag (flag : Flag) (enabled : bool) (this : Group) : Group :=
  {| flags := if enabled then {[flag]} ∪ flags this else flags this ∖ {[flag]};
     emitted := emitted this;
     _draggable := _draggable this; _acceptDrops := _acceptDrops this;
     _label := _label this; _hilightDrag := _hilightDrag this;
     _shadowDropNode := _shadowDropNode this; _container := _container this |}.

Definition getDynamicClassName (this : Group) : string := "qan::Group".

Definition getClassName (this : Group) : string := getDynamicClassName this.

Definition setDraggable (draggable : bool) (this : Group) : Group :=
  emit draggableChanged
    {| flags := flags this; emitted := emitted this;
       _draggable := draggable; _acceptDrops := _acceptDrops this;
       _label := _label this; _hilightDrag := _hilightDrag this;
       _shadowDropNode := _shadowDropNode this; _container := _container this |}.

Definition getDraggable (this : Group) : bool := _draggable this.

Definition setAcceptDrops (acceptDrops : bool) (this : Group) : Group :=
  emit acceptDropsChanged
    (setFlag ItemAcceptsDrops acceptDrops
       {| flags := flags this; emitted := emitted this;
          _draggable := _draggable this; _acceptDrops := acceptDrops;
          _label := _label this; _hilightDrag := _hilightDrag this;
          _shadowDropNode := _shadowDropNode this; _container := _container this |}).

Definition getAcceptDrops (this : Group) : bool := _acceptDrops this.

Definition setLabel (label : string) (this : Group) : Group :=
  emit labelChanged
    {| flags := flags this; emitted := emitted this;
       _draggable := _draggable this; _acceptDrops := _acceptDrops this;
       _label := label; _hilightDrag := _hilightDrag this;
       _shadowDropNode := _shadowDropNode this; _container := _container this |}.

Definition getLabel (this : Group) : string := _label this.

Definition setHilightDrag (hilightDrag : bool) (this : Group) : Group :=
  emit hilightDragChanged
    {| flags := flags this; emitted := emitted this;
       _draggable := _draggable this; _acceptDrops := _acceptDrops this;
       _label := _label this; _hilightDrag := hilightDrag;
       _shadowDropNode := _shadowDropNode this; _container := _container this |}.

Definition getHilightDrag (this : Group) : bool := _hilightDrag this.

Definition setContainer (container : option QQuickItem) (this : Group) : Group :=
  emit containerChanged
    {| flags := flags this; emitted := emitted this;
       _draggable := _draggable this; _acceptDrops := _acceptDrops this;
       _label := _label this; _hilightDrag := _hilightDrag this;
       _shadowDropNode := _shadowDropNode this; _container := container |}.

Definition getContainer (this : Group) : option QQuickItem := _container this.

(** The property writes ([WRITE] of each [Q_PROPERTY]), as a call alphabet. *)
Inductive call :=
| call_setDraggable (draggable : bool)
| call_setAcceptDrops (acceptDrops : bool)
| call_setLabel (label : string)
| call_setHilightDrag (hilightDrag : bool)
| call_setContainer (container : option QQuickItem).

Definition write (this : Group) (c : call) : Group :=
  match c with
  | call_setDraggable b => setDraggable b this
  | call_setAcceptDrops b => setAcceptDrops b this
  | call_setLabel l => setLabel l this
  | call_setHilightDrag b => setHilightDrag b this
  | call_setContainer q => setContainer q this
  end.

Definition write_all (this : Group) (cs : list call) : Group :=
  foldl write this cs.

(** The [NOTIFY] signal of the property a call writes. *)
Definition notifies (c : call) : signal :=
  match c with
  | call_setDraggable _ => draggableChanged
  | call_setAcceptDrops _ => acceptDropsChanged
  | call_setLabel _ => labelChanged
  | call_setHilightDrag _ => hilightDragChanged
  | call_setContainer _ => containerChanged
  end.

Definition draggable_arg (c : call) : option bool :=
  match c with call_setDraggable b => Some b | _ => None end.

Definition acceptDrops_arg (c : call) : option bool :=
  match c with call_setAcceptDrops b => Some b | _ => None end.

Definition label_arg (c : call) : option string :=
  match c with call_setLabel l => Some l | _ => None end.

Definition hilightDrag_arg (c : call) : option bool :=
  match c with call_setHilightDrag b => Some b | _ => None end.

Definition container_arg (c : call) : option (option QQuickItem) :=
  match c with call_setContainer q => Some q | _ => None end.

(** The item flag agrees with the [acceptDrops] property. *)
Definition drops_in_sync (this : Group) : Prop :=
  ItemAcceptsDrops ∈ flags this ↔ getAcceptDrops this = true.
End group.

Global Arguments Group : clear implicits.
Global Arguments Group Flag {_ _} QQuickItem Node.
Global Arguments call : clear implicits.

End QanGroup.

(** * Properties of [gtpo::observer] *)

Section observer_facts.
Import Observer.
Context {target_t : Type}.
Implicit Types (this o : observer target_t) (t : option target_t).
Implicit Types (ms : list (method target_t)).

Lemma isEnabled_invoke o (m : method target_t) :
  is_disable m = false → isEnabled o = true → isEnabled (invoke o m) = true.
Proof. by destruct m. Qed.

Lemma isEnabled_invoke_all ms : ∀ o,
  Forall (λ m, is_disable m = false) ms →
  isEnabled o = true → isEnabled (invoke_all o ms) = true.
Proof.
  induction ms as [|m ms IH]; intros o Hms Ho; [done|].
  inversion_clear Hms. apply IH; [done|]. by apply isEnabled_invoke.
Qed.

Lemma get_target_invoke_all ms : ∀ o,
  Forall (λ m, is_set_target m = false) ms →
  get_target (invoke_all o ms) = get_target o.
Proof.
  induction ms as [|m ms IH]; intros o Hms; [done|].
  inversion_clear Hms.
  change (invoke_all o (m :: ms)) with (invoke_all (invoke o m) ms).
  rewrite IH; [|done]. by destruct m.
Qed.

Lemma getName_invoke_all ms : ∀ o,
  Forall (λ m, is_setName m = false) ms →
  getName (invoke_all o ms) = getName o.
Proof.
  induction ms as [|m ms IH]; intros o Hms; [done|].
  inversion_clear Hms.
  change (invoke_all o (m :: ms)) with (invoke_all (invoke o m) ms).
  rewrite IH; [|done]. by destruct m.
Qed.

(** C8: [enable()] and [disable()] are idempotent, and they force the
    enabled flag to [true], respectively [false], whatever it was before. *)
Theorem enable_disable_idempotent this :
  enable (enable this) = enable this ∧
  disable (disable this) = disable this ∧
  isEnabled (enable this) = true ∧
  isEnabled (disable this) = false ∧
  get_target (enable this) = get_target this ∧
  getName (enable this) = getName this ∧
  get_target (disable this) = get_target this ∧
  getName (disable this) = getName this.
Proof. by destruct this. Qed.

Lemma execute_all_cons this (op : operation target_t) ops :
  execute_all this (op :: ops) = execute_all (execute this op) ops.
Proof. done. Qed.


Lemma get_target_execute_all (ops : list (operation target_t)) : ∀ o,
  Forall keeps_target_null ops → get_target o = None →
  get_target (execute_all o ops) = None.
Proof.
  induction ops as [|op ops IH]; intros o Hops Ho; [done|].
  inversion_clear Hops as [|? ? Hop Hrest]. rewrite execute_all_cons.
  apply IH; [done|]. destruct op as [m|rhs]; [|exact Hop].
  by destruct m.
Qed.

Lemma getName_execute_all (ops : list (operation target_t)) : ∀ o,
  Forall keeps_name_empty ops → getName o = EmptyString →
  getName (execute_all o ops) = EmptyString.
Proof.
  induction ops as [|op ops IH]; intros o Hops Ho; [done|].
  inversion_clear Hops as [|? ? Hop Hrest]. rewrite execute_all_cons.
  apply IH; [done|]. destruct op as [m|rhs]; [|exact Hop].
  by destruct m.
Qed.

(** C10, as the class has it: a default-constructed observer has a null
    target and an empty name; [get_target()] stays null until [set_target]
    is called or an observer that has a target is assigned to it, and
    [getName()] stays empty until [setName] is called or a named observer is
    assigned to it; [set_target(t)] makes [get_target()] return [t] and
    leaves the enabled flag and the name alone. *)
Theorem default_target_and_name_until_written :
  get_target (observer_new (target_t := target_t)) = None ∧
  getName (observer_new (target_t := target_t)) = EmptyString ∧
  (∀ ops : list (operation target_t), Forall keeps_target_null ops →
         get_target (execute_all observer_new ops) = None) ∧
  (∀ ops : list (operation target_t), Forall keeps_name_empty ops →
         getName (execute_all observer_new ops) = EmptyString) ∧
  (∀ t this, get_target (set_target t this) = t ∧
             isEnabled (set_target t this) = isEnabled this ∧
             getName (set_target t this) = getName this).
Proof.
  split_and!; try done.
  - intros ops Hops. by apply get_target_execute_all.
  - intros ops Hops. by apply getName_execute_all.
Qed.
End observer_facts.

(** C10, as stated, fails: an assignment gives a default-constructed
    observer a target, and a name, with neither setter called. *)
Lemma null_until_set_target_refuted :
  ¬ (∀ ops : list (Observer.operation nat),
       Forall (λ op, Observer.calls_set_target op = false) ops →
       Observer.get_target (Observer.execute_all Observer.observer_new ops) = None) ∧
  ¬ (∀ ops : list (Observer.operation nat),
       Forall (λ op, Observer.calls_setName op = false) ops →
       Observer.getName (Observer.execute_all Observer.observer_new ops) = EmptyString).
Proof.
  split; intros H.
  - specialize (H [Observer.via_assign
                     (Observer.set_target (Some 3) Observer.observer_new)]).
    cbn in H. discriminate H. by repeat constructor.
  - specialize (H [Observer.via_assign
                     (Observer.setName "other" Observer.observer_new)]).
    cbn in H. discriminate H. by repeat constructor.
Qed.

Lemma default_target_and_name_until_written_witness :
  Observer.get_target (Observer.execute_all (Observer.observer_new (target_t := nat))
    [Observer.via_method (Observer.call_setName "watcher");
     Observer.via_assign (Observer.disable Observer.observer_new);
     Observer.via_method Observer.call_enable]) = None ∧
  Observer.getName (Observer.execute_all (Observer.observer_new (target_t := nat))
    [Observer.via_method (Observer.call_set_target (Some 3));
     Observer.via_assign (Observer.set_target (Some 5) Observer.observer_new);
     Observer.via_method Observer.call_disable]) = EmptyString.
Proof.
  split.
  - apply (proj1 (proj2 (proj2 (default_target_and_name_until_written (target_t := nat))))).
    by repeat constructor.
  - apply (proj1 (proj2 (proj2 (proj2
             (default_target_and_name_until_written (target_t := nat)))))).
    by repeat constructor.
Defined.

(** * Properties of [gtpo::node_observer] *)

Section node_observer_facts.
Import Observer NodeObserver.

Lemma hooks_NoDup : NoDup hooks.
Proof. apply (bool_decide_unpack _). by vm_compute. Qed.

Lemma hooks_complete (h : hook) : h ∈ hooks.
Proof. destruct h; apply (bool_decide_unpack _); by vm_compute. Qed.

Lemma hook_count_unique n : hook_count n → n = 6.
Proof.
  intros (l & Hnd & Hall & <-).
  assert (l ≡ₚ hooks) as ->; [|done].
  apply NoDup_Permutation; [done|apply hooks_NoDup|].
  intros h. split; intros _; [apply hooks_complete|apply Hall].
Qed.

(** C6, as the class has it: the interface provides exactly six hooks,
    three per side: inserted and removed with edge context, and the final
    removed without it. *)
Theorem six_hooks :
  hook_count 6 ∧
  filter (λ h, hook_side h = in_side) hooks =
    [slot_on_in_node_inserted; slot_on_in_node_removed; slot_on_in_node_removed1] ∧
  filter (λ h, hook_side h = out_side) hooks =
    [slot_on_out_node_inserted; slot_on_out_node_removed; slot_on_out_node_removed1] ∧
  filter (λ h, has_edge_context h = false) hooks =
    [slot_on_in_node_removed1; slot_on_out_node_removed1].
Proof.
  split_and!; try done.
  exists hooks. split_and!; [apply hooks_NoDup|apply hooks_complete|done].
Qed.

(** C6, as stated, fails: the hooks are not five. *)
Lemma five_hooks_refuted : ¬ hook_count 5.
Proof. intros H. by apply hook_count_unique in H. Qed.

Context {node_t edge_t : Type}.

(** C9: the body a hook has in [node_observer] is a no-op, so an observer
    class that does not override a hook leaves the observer, the nodes and
    the edge of the call as they were. *)
Theorem default_hook_noop (cls : derived node_t edge_t) (h : hook)
    (fr : frame node_t edge_t h) :
  overrides cls h = None →
  dispatch cls h fr = fr ∧ base_body h fr = fr ∧
  frame_this h (dispatch cls h fr) = frame_this h fr ∧
  frame_target h (dispatch cls h fr) = frame_target h fr.
Proof. intros Hnone. unfold dispatch. rewrite Hnone. by destruct h. Qed.
End node_observer_facts.

Lemma default_hook_noop_witness :
  let fr := NodeObserver.mk_frame3 Observer.observer_new 1 2 7 in
  NodeObserver.dispatch NodeObserver.renaming_observer NodeObserver.slot_on_out_node_removed fr = fr ∧
  NodeObserver.base_body NodeObserver.slot_on_out_node_removed fr = fr.
Proof.
  intros fr.
  destruct (default_hook_noop NodeObserver.renaming_observer
              NodeObserver.slot_on_out_node_removed fr eq_refl) as (H1 & H2 & _).
  exact (conj H1 H2).
Defined.

(** * Properties of the graph container *)

Section graph_facts.
Import Observer Graph.
Implicit Types (g : graph) (n src dst : nat) (e : nat) (ed : edge).
Implicit Types (k : notification) (t : list call) (es : list nat).

(** ** Fan-out *)

Lemma fan_out_filter (obs : list node_observer) k g :
  fan_out obs k g = (λ o, mk_call (handle o) k g) <$> filter enabled obs.
Proof.
  induction obs as [|o obs IH]; [done|]. cbn [fan_out].
  destruct (isEnabled (base o)) eqn:Ho.
  - rewrite filter_cons_True by done. by rewrite IH.
  - rewrite filter_cons_False; [done|]. unfold enabled. by rewrite Ho.
Qed.

Lemma fan_out_app (obs1 obs2 : list node_observer) k g :
  fan_out (obs1 ++ obs2) k g = fan_out obs1 k g ++ fan_out obs2 k g.
Proof. by rewrite !fan_out_filter, filter_app, fmap_app. Qed.

Lemma elem_of_fan_out (obs : list node_observer) k g (c : call) :
  c ∈ fan_out obs k g ↔
  ∃ o, o ∈ obs ∧ enabled o ∧ c = mk_call (handle o) k g.
Proof.
  rewrite fan_out_filter, list_elem_of_fmap. split.
  - intros (o & -> & [Ho Hin]%list_elem_of_filter). by exists o.
  - intros (o & Hin & Ho & ->). exists o. by rewrite list_elem_of_filter.
Qed.

(** ** Adjacency after the bookkeeping steps *)

Lemma lookup_attach_edge e src dst g n :
  nodes (attach_edge e src dst g) !! n =
  (λ nd, (if decide (dst = n) then with_in_edges (λ l, l ++ [e]) else id)
           ((if decide (src = n) then with_out_edges (λ l, l ++ [e]) else id) nd))
  <$> nodes g !! n.
Proof.
  unfold attach_edge; simpl. rewrite !lookup_alter.
  repeat case_decide; simplify_eq.
  all: by destruct (_ !! _).
Qed.

Lemma lookup_detach_edge e ed g n :
  nodes (detach_edge e ed g) !! n =
  (λ nd, (if decide (destination ed = n)
          then with_in_edges (filter (λ x, x ≠ e)) else id)
           ((if decide (source ed = n)
             then with_out_edges (filter (λ x, x ≠ e)) else id) nd))
  <$> nodes g !! n.
Proof.
  destruct ed as [s d]. unfold detach_edge; simpl. rewrite !lookup_alter.
  repeat case_decide; simplify_eq.
  all: by destruct (_ !! _).
Qed.

Lemma out_edges_attach_edge e src dst g n :
  out_edges_of (attach_edge e src dst g) n =
  if decide (src = n ∧ is_Some (nodes g !! n))
  then out_edges_of g n ++ [e] else out_edges_of g n.
Proof.
  unfold out_edges_of. rewrite lookup_attach_edge.
  destruct (nodes g !! n) as [nd|]; simpl.
  - repeat case_decide; try done; destruct_and?; simplify_eq.
    all: exfalso; eauto.
  - case_decide as H; [|done]. destruct H as [_ [? ?]]; done.
Qed.

Lemma in_edges_attach_edge e src dst g n :
  in_edges_of (attach_edge e src dst g) n =
  if decide (dst = n ∧ is_Some (nodes g !! n))
  then in_edges_of g n ++ [e] else in_edges_of g n.
Proof.
  unfold in_edges_of. rewrite lookup_attach_edge.
  destruct (nodes g !! n) as [nd|]; simpl.
  - repeat case_decide; try done; destruct_and?; simplify_eq.
    all: exfalso; eauto.
  - case_decide as H; [|done]. destruct H as [_ [? ?]]; done.
Qed.

Lemma out_edges_detach_edge e ed g n :
  out_edges_of (detach_edge e ed g) n =
  if decide (source ed = n)
  then filter (λ x, x ≠ e) (out_edges_of g n) else out_edges_of g n.
Proof.
  unfold out_edges_of. rewrite lookup_detach_edge.
  destruct (nodes g !! n) as [nd|]; simpl; repeat case_decide; done.
Qed.

Lemma in_edges_detach_edge e ed g n :
  in_edges_of (detach_edge e ed g) n =
  if decide (destination ed = n)
  then filter (λ x, x ≠ e) (in_edges_of g n) else in_edges_of g n.
Proof.
  unfold in_edges_of. rewrite lookup_detach_edge.
  destruct (nodes g !! n) as [nd|]; simpl; repeat case_decide; done.
Qed.

Lemma observers_attach_edge e src dst g n :
  observers_of (attach_edge e src dst g) n = observers_of g n.
Proof.
  unfold observers_of. rewrite lookup_attach_edge.
  destruct (nodes g !! n); simpl; repeat case_decide; done.
Qed.

Lemma observers_detach_edge e ed g n :
  observers_of (detach_edge e ed g) n = observers_of g n.
Proof.
  unfold observers_of. rewrite lookup_detach_edge.
  destruct (nodes g !! n); simpl; repeat case_decide; done.
Qed.

Lemma group_detach_edge e ed g n :
  group_of (detach_edge e ed g) n = group_of g n.
Proof.
  unfold group_of. rewrite lookup_detach_edge.
  destruct (nodes g !! n); simpl; repeat case_decide; done.
Qed.

Lemma member_detach_edge e ed g n :
  is_Some (nodes (detach_edge e ed g) !! n) ↔ is_Some (nodes g !! n).
Proof. rewrite lookup_detach_edge. by rewrite fmap_is_Some. Qed.

Lemma member_attach_edge e src dst g n :
  is_Some (nodes (attach_edge e src dst g) !! n) ↔ is_Some (nodes g !! n).
Proof. rewrite lookup_attach_edge. by rewrite fmap_is_Some. Qed.

(** ** Edge insertion and removal, step by step *)

Lemma remove_edge_member e ed g :
  edges g !! e = Some ed →
  remove_edge e g = (Ok tt, detach_edge e ed g, removal_calls e ed g).
Proof.
  intros He. unfold remove_edge, bind, get, notify, modify, removal_calls.
  rewrite He. simpl. by rewrite ?app_nil_r.
Qed.

Lemma remove_edge_stale e g :
  edges g !! e = None → remove_edge e g = (Err NotFoundError, g, []).
Proof. intros He. unfold remove_edge, bind, get, throw. by rewrite He. Qed.

Lemma insert_edge_members src dst g :
  is_Some (nodes g !! src) → is_Some (nodes g !! dst) →
  insert_edge src dst g =
    (Ok (next_edge g), attach_edge (next_edge g) src dst g,
     insertion_calls (next_edge g) src dst g).
Proof.
  intros [? Hs] [? Hd].
  unfold insert_edge, bind, get, notify, modify, ret, insertion_calls.
  rewrite Hs, Hd. simpl. by rewrite ?app_nil_r.
Qed.

Lemma insert_edge_invalid src dst g :
  nodes g !! src = None ∨ nodes g !! dst = None →
  insert_edge src dst g = (Err InvalidEndpointError, g, []).
Proof.
  intros H. unfold insert_edge, bind, get, throw.
  destruct (nodes g !! src), (nodes g !! dst); by destruct H.
Qed.


(** ** The consistency invariant of the container *)

Lemma fmap_Some_is_Some {A B} (f : A → B) (mx : option A) (y : B) :
  f <$> mx = Some y → is_Some mx.
Proof. destruct mx; [eauto|done]. Qed.

Lemma filter_all {A} (P : A → Prop) `{!∀ x, Decision (P x)} (l : list A) :
  Forall P l → filter P l = l.
Proof.
  induction 1 as [|x l Hx _ IH]; [done|].
  by rewrite filter_cons_True, IH.
Qed.

Lemma filter_none {A} (P : A → Prop) `{!∀ x, Decision (P x)} (l : list A) :
  Forall (λ x, ¬ P x) l → filter P l = [].
Proof.
  induction 1 as [|x l Hx _ IH]; [done|].
  by rewrite filter_cons_False.
Qed.

Lemma wf_adjacency_symmetry g : wf g → adjacency_symmetry g.
Proof. intros [H1 H2 _ _ _ _]. by split. Qed.

Lemma wf_empty : wf empty_graph.
Proof.
  split; unfold out_edges_of, in_edges_of; simpl.
  - intros n e. rewrite lookup_empty. by intros ?%elem_of_nil.
  - intros n e. rewrite lookup_empty. by intros ?%elem_of_nil.
  - intros e ed. by rewrite lookup_empty.
  - intros e ed. by rewrite lookup_empty.
  - intros n. rewrite lookup_empty. by intros [? ?].
  - intros n. rewrite lookup_empty. by intros [? ?].
Qed.

Lemma wf_same_adjacency g g' :
  same_adjacency g g' →
  (∀ n, is_Some (nodes g' !! n) → n < next_node g') →
  wf g → wf g'.
Proof.
  intros (Hout & Hin & Hed & Hne) Hnn [].
  split; try done.
  - intros n e. rewrite Hout, Hed. auto.
  - intros n e. rewrite Hin, Hed. auto.
  - intros e ed. rewrite Hout, Hed. auto.
  - intros e ed. rewrite Hin, Hed. auto.
  - intros e. rewrite Hed, Hne. auto.
Qed.

Lemma wf_attach_edge src dst g :
  wf g → is_Some (nodes g !! src) → is_Some (nodes g !! dst) →
  wf (attach_edge (next_edge g) src dst g).
Proof.
  intros Hwf Hs Hd.
  assert (Hfresh : edges g !! next_edge g = None).
  { destruct (edges g !! next_edge g) eqn:E; [|done].
    assert (next_edge g < next_edge g) by (apply (wf_next_edge g Hwf); eauto). lia. }
  assert (Hold : ∀ e, is_Some (edges g !! e) →
             edges (attach_edge (next_edge g) src dst g) !! e = edges g !! e).
  { intros e He. simpl. rewrite lookup_insert_ne; [done|].
    intros <-. rewrite Hfresh in He. by destruct He. }
  split.
  - intros n e. rewrite out_edges_attach_edge. case_decide as Hn.
    + destruct Hn as [<- _]. intros [He| ->%list_elem_of_singleton]%elem_of_app.
      * apply (wf_out g Hwf) in He as He'. rewrite Hold; [done|].
        by eapply fmap_Some_is_Some.
      * simpl. by rewrite lookup_insert_eq.
    + intros He. apply (wf_out g Hwf) in He as He'. rewrite Hold; [done|].
      by eapply fmap_Some_is_Some.
  - intros n e. rewrite in_edges_attach_edge. case_decide as Hn.
    + destruct Hn as [<- _]. intros [He| ->%list_elem_of_singleton]%elem_of_app.
      * apply (wf_in g Hwf) in He as He'. rewrite Hold; [done|].
        by eapply fmap_Some_is_Some.
      * simpl. by rewrite lookup_insert_eq.
    + intros He. apply (wf_in g Hwf) in He as He'. rewrite Hold; [done|].
      by eapply fmap_Some_is_Some.
  - intros e ed. simpl edges. rewrite lookup_insert. case_decide as He.
    + intros [= <-]. subst e. simpl. rewrite out_edges_attach_edge.
      rewrite decide_True by done. apply elem_of_app. right. by left.
    + intros Hed. apply (wf_source g Hwf) in Hed.
      rewrite out_edges_attach_edge. case_decide; [|done].
      apply elem_of_app. by left.
  - intros e ed. simpl edges. rewrite lookup_insert. case_decide as He.
    + intros [= <-]. subst e. simpl. rewrite in_edges_attach_edge.
      rewrite decide_True by done. apply elem_of_app. right. by left.
    + intros Hed. apply (wf_destination g Hwf) in Hed.
      rewrite in_edges_attach_edge. case_decide; [|done].
      apply elem_of_app. by left.
  - intros n Hn. apply member_attach_edge in Hn. simpl. by apply (wf_next_node g Hwf).
  - intros e. simpl. rewrite lookup_insert. case_decide as He; [lia|].
    intros Hin. apply (wf_next_edge g Hwf) in Hin. lia.
Qed.

(** Under the invariant, detaching [e] filters it out of every list. *)
Lemma out_edges_detach_edge_wf e ed g n :
  wf g → edges g !! e = Some ed →
  out_edges_of (detach_edge e ed g) n = filter (λ x, x ≠ e) (out_edges_of g n).
Proof.
  intros Hwf He. rewrite out_edges_detach_edge. case_decide as Hn; [done|].
  symmetry. apply filter_all, Forall_forall. intros x Hx ->.
  apply (wf_out g Hwf) in Hx. rewrite He in Hx. simpl in Hx. congruence.
Qed.

Lemma in_edges_detach_edge_wf e ed g n :
  wf g → edges g !! e = Some ed →
  in_edges_of (detach_edge e ed g) n = filter (λ x, x ≠ e) (in_edges_of g n).
Proof.
  intros Hwf He. rewrite in_edges_detach_edge. case_decide as Hn; [done|].
  symmetry. apply filter_all, Forall_forall. intros x Hx ->.
  apply (wf_in g Hwf) in Hx. rewrite He in Hx. simpl in Hx. congruence.
Qed.

Lemma wf_detach_edge e ed g :
  wf g → edges g !! e = Some ed → wf (detach_edge e ed g).
Proof.
  intros Hwf He. split.
  - intros n x. rewrite out_edges_detach_edge_wf by done.
    intros [Hx Hin]%list_elem_of_filter. simpl. rewrite lookup_delete_ne by done.
    by apply (wf_out g Hwf).
  - intros n x. rewrite in_edges_detach_edge_wf by done.
    intros [Hx Hin]%list_elem_of_filter. simpl. rewrite lookup_delete_ne by done.
    by apply (wf_in g Hwf).
  - intros x xd. simpl edges. rewrite lookup_delete. case_decide; [done|].
    intros Hx. rewrite out_edges_detach_edge_wf by done.
    apply list_elem_of_filter. split; [done|]. by apply (wf_source g Hwf).
  - intros x xd. simpl edges. rewrite lookup_delete. case_decide; [done|].
    intros Hx. rewrite in_edges_detach_edge_wf by done.
    apply list_elem_of_filter. split; [done|]. by apply (wf_destination g Hwf).
  - intros n Hn. apply member_detach_edge in Hn. simpl. by apply (wf_next_node g Hwf).
  - intros x. simpl. rewrite lookup_delete. case_decide; [by intros [? ?]|].
    apply (wf_next_edge g Hwf).
Qed.


(** ** What an edge removal leaves alone *)

Lemma same_population_refl g : same_population g g.
Proof. by split_and!. Qed.

Lemma same_population_trans g1 g2 g3 :
  same_population g1 g2 → same_population g2 g3 → same_population g1 g3.
Proof.
  intros (Ho & Hg & Hm & Hgr) (Ho' & Hg' & Hm' & Hgr'). split_and!.
  - intros n. by rewrite Ho', Ho.
  - intros n. by rewrite Hg', Hg.
  - intros n. by rewrite Hm', Hm.
  - by rewrite Hgr', Hgr.
Qed.

Lemma same_population_detach_edge e ed g :
  same_population g (detach_edge e ed g).
Proof.
  split_and!; [apply observers_detach_edge|apply group_detach_edge|
               apply member_detach_edge|done].
Qed.

Lemma signal_fan_out g g' v n k :
  observers_of g' n = observers_of g n →
  signal <$> fan_out (observers_of g' n) k v = deliveries g n k.
Proof.
  intros ->. rewrite fan_out_filter. unfold deliveries.
  rewrite <-list_fmap_compose. done.
Qed.

Lemma signal_removal_calls e ed g :
  edges g !! e = Some ed →
  signal <$> removal_calls e ed g = removal_protocol g e.
Proof.
  intros He. unfold removal_calls, removal_protocol. rewrite He.
  rewrite !fmap_app.
  rewrite !(signal_fan_out g); auto using observers_detach_edge.
Qed.

Lemma removal_calls_views e ed g :
  Forall (λ c, same_population g (view c)) (removal_calls e ed g).
Proof.
  unfold removal_calls. rewrite !Forall_app. split_and!.
  all: apply Forall_forall; intros c (o & _ & _ & ->)%elem_of_fan_out; simpl.
  all: auto using same_population_refl, same_population_detach_edge.
Qed.

Lemma removal_protocol_ext g g' e :
  edges g' !! e = edges g !! e →
  (∀ n, observers_of g' n = observers_of g n) →
  removal_protocol g' e = removal_protocol g e.
Proof.
  intros He Ho. unfold removal_protocol, deliveries. rewrite He.
  destruct (edges g !! e); [|done]. by rewrite !Ho.
Qed.

Lemma remove_edges_cascade es : ∀ g,
  wf g → NoDup es → (∀ e, e ∈ es → is_Some (edges g !! e)) →
  ∃ g1 t, remove_edges es g = (Ok tt, g1, t) ∧ cascaded es g g1 t.
Proof.
  induction es as [|e es IH]; intros g Hwf Hnd Hes.
  { exists g, []. split; [done|]. split; try done.
    - intros n. symmetry. apply filter_all, Forall_forall.
      intros x _. apply not_elem_of_nil.
    - intros n. symmetry. apply filter_all, Forall_forall.
      intros x _. apply not_elem_of_nil. }
  apply NoDup_cons in Hnd as [He Hnd].
  destruct (Hes e) as [ed Hed]; [by left|].
  pose proof (wf_detach_edge e ed g Hwf Hed) as Hwf'.
  destruct (IH (detach_edge e ed g) Hwf' Hnd) as (g1 & t & Hrun & Hcas).
  { intros x Hx. simpl. rewrite lookup_delete_ne; [|by intros ->].
    apply Hes. by right. }
  exists g1, (removal_calls e ed g ++ t). split.
  { cbn [remove_edges]. unfold bind at 1.
    rewrite (remove_edge_member e ed g Hed), Hrun. done. }
  destruct Hcas as [Hwf1 Hout Hin Hedges Hpop Hnn Hsig Hviews].
  pose proof (same_population_detach_edge e ed g) as Hpop0.
  split; try done.
  - intros n. rewrite Hout, out_edges_detach_edge_wf by done.
    rewrite list_filter_filter. apply list_filter_iff. intros x.
    rewrite not_elem_of_cons. tauto.
  - intros n. rewrite Hin, in_edges_detach_edge_wf by done.
    rewrite list_filter_filter. apply list_filter_iff. intros x.
    rewrite not_elem_of_cons. tauto.
  - intros x. rewrite Hedges. simpl edges. rewrite lookup_delete.
    destruct (decide (x ∈ es)) as [Hx|Hx].
    + rewrite decide_True; [done|by right].
    + case_decide as Hex.
      * subst x. rewrite decide_True; [done|by left].
      * rewrite decide_False; [done|]. rewrite not_elem_of_cons. by split.
  - by eapply same_population_trans.
  - rewrite fmap_app, Hsig, (signal_removal_calls e ed g Hed).
    change ((e :: es) ≫= removal_protocol g)
      with (removal_protocol g e ++ (es ≫= removal_protocol g)).
    f_equal. clear -He Hpop0. induction es as [|x es IHes]; [done|].
    apply not_elem_of_cons in He as [Hne He].
    change ((x :: es) ≫= ?f) with (f x ++ (es ≫= f)).
    rewrite IHes by done. f_equal. apply removal_protocol_ext.
    + simpl. by rewrite lookup_delete_ne.
    + apply Hpop0.
  - apply Forall_app. split; [apply removal_calls_views|].
    eapply Forall_impl; [exact Hviews|]. simpl. intros c Hc.
    by eapply same_population_trans.
Qed.


(** ** Every operation keeps the invariant *)

Lemma same_adjacency_alter (f : node → node) n g :
  (∀ nd, out_edges (f nd) = out_edges nd) →
  (∀ nd, in_edges (f nd) = in_edges nd) →
  same_adjacency g (set_nodes (alter f n) g).
Proof.
  intros Hout Hin. unfold same_adjacency, out_edges_of, in_edges_of. simpl.
  split_and!; try done.
  - intros m. rewrite lookup_alter. case_decide; [subst m|done].
    destruct (nodes g !! n); simpl; [apply Hout|done].
  - intros m. rewrite lookup_alter. case_decide; [subst m|done].
    destruct (nodes g !! n); simpl; [apply Hin|done].
Qed.

Lemma wf_alter (f : node → node) n g :
  (∀ nd, out_edges (f nd) = out_edges nd) →
  (∀ nd, in_edges (f nd) = in_edges nd) →
  wf g → wf (set_nodes (alter f n) g).
Proof.
  intros Hout Hin Hwf.
  apply (wf_same_adjacency g); [by apply same_adjacency_alter| |done].
  intros m Hm. simpl in *. apply lookup_alter_is_Some in Hm.
  by apply (wf_next_node g Hwf).
Qed.

Lemma wf_set_groups f g : wf g → wf (set_groups f g).
Proof.
  intros Hwf. apply (wf_same_adjacency g); [done| |done].
  intros m Hm. by apply (wf_next_node g Hwf).
Qed.

Lemma wf_ungroup n gr g : wf g → wf (ungroup n gr g).
Proof. intros Hwf. by apply wf_set_groups, wf_alter. Qed.

Lemma wf_delete_node n g :
  wf g → out_edges_of g n = [] → in_edges_of g n = [] →
  wf (set_nodes (delete n) g).
Proof.
  intros Hwf Hout Hin. apply (wf_same_adjacency g); [|..|done].
  - unfold same_adjacency, out_edges_of, in_edges_of in *. simpl.
    split_and!; try done; intros m; rewrite lookup_delete.
    + case_decide; [subst m|done]. by rewrite Hout.
    + case_decide; [subst m|done]. by rewrite Hin.
  - intros m. simpl. rewrite lookup_delete. case_decide; [by intros [? ?]|].
    apply (wf_next_node g Hwf).
Qed.

Lemma wf_insert_node g : wf g → wf (insert_node g).1.2.
Proof.
  intros Hwf. unfold insert_node, bind, get, modify, ret. simpl.
  assert (Hfresh : nodes g !! next_node g = None).
  { destruct (nodes g !! next_node g) eqn:E; [|done].
    assert (next_node g < next_node g) by (apply (wf_next_node g Hwf); eauto). lia. }
  apply (wf_same_adjacency g); [|..|done].
  - unfold same_adjacency, out_edges_of, in_edges_of. simpl.
    split_and!; try done; intros m; rewrite lookup_insert.
    + case_decide; [subst m|done]. by rewrite Hfresh.
    + case_decide; [subst m|done]. by rewrite Hfresh.
  - intros m. simpl. rewrite lookup_insert. case_decide; [lia|].
    intros Hm. apply (wf_next_node g Hwf) in Hm. lia.
Qed.

Lemma wf_insert_group g : wf g → wf (insert_group g).1.2.
Proof.
  intros Hwf. unfold insert_group, bind, get, modify, ret. simpl.
  apply (wf_same_adjacency g); [done| |done].
  intros m Hm. by apply (wf_next_node g Hwf).
Qed.

Lemma wf_insert_edge src dst g : wf g → wf (insert_edge src dst g).1.2.
Proof.
  intros Hwf.
  destruct (nodes g !! src) as [ns|] eqn:Hs; [destruct (nodes g !! dst) as [nt|] eqn:Hd|].
  - rewrite insert_edge_members by eauto. simpl. apply wf_attach_edge; eauto.
  - rewrite insert_edge_invalid by auto. done.
  - rewrite insert_edge_invalid by auto. done.
Qed.

Lemma wf_remove_edge e g : wf g → wf (remove_edge e g).1.2.
Proof.
  intros Hwf. destruct (edges g !! e) as [ed|] eqn:He.
  - rewrite (remove_edge_member e ed) by done. simpl. by apply wf_detach_edge.
  - by rewrite remove_edge_stale.
Qed.

Lemma remove_node_from_group_eq n g :
  remove_node_from_group n g =
  match nodes g !! n with
  | None => (Err NotFoundError, g, [])
  | Some nd =>
      (Ok tt, match group nd with Some gr => ungroup n gr g | None => g end, [])
  end.
Proof.
  unfold remove_node_from_group, bind, get, throw, ret, modify.
  destruct (nodes g !! n) as [nd|]; [|done]. by destruct (group nd).
Qed.

Lemma wf_remove_node_from_group n g : wf g → wf (remove_node_from_group n g).1.2.
Proof.
  intros Hwf. rewrite remove_node_from_group_eq.
  destruct (nodes g !! n) as [nd|]; [|done]. simpl.
  destruct (group nd); [by apply wf_ungroup|done].
Qed.

Lemma wf_insert_node_into_group n gr g :
  wf g → wf (insert_node_into_group n gr g).1.2.
Proof.
  intros Hwf. unfold insert_node_into_group, bind at 1, get.
  destruct (nodes g !! n) as [nd|] eqn:Hn; [|done].
  destruct (groups g !! gr); [|done].
  unfold bind, modify. rewrite remove_node_from_group_eq, Hn. simpl.
  apply wf_set_groups, wf_alter; try done.
  destruct (group nd); [by apply wf_ungroup|done].
Qed.

Lemma wf_registration (r : registration) g : wf g → wf (registration_sem r g).1.2.
Proof.
  intros Hwf.
  destruct r as [n o|n h|n h|n h]; simpl;
    unfold attach_observer, detach_observer, enable_observer, disable_observer,
      bind, get, throw, modify;
    (destruct (nodes g !! n); [|done]); simpl; by apply wf_alter.
Qed.

Lemma touching_members g n nd e :
  wf g → nodes g !! n = Some nd → e ∈ touching nd → is_Some (edges g !! e).
Proof.
  intros Hwf Hn. unfold touching. rewrite elem_of_remove_dups, elem_of_app.
  intros [He|He].
  - apply (fmap_Some_is_Some source _ n), (wf_out g Hwf).
    unfold out_edges_of. by rewrite Hn.
  - apply (fmap_Some_is_Some destination _ n), (wf_in g Hwf).
    unfold in_edges_of. by rewrite Hn.
Qed.

(** The three stages of [remove_node] on a member. *)
Lemma remove_node_member g n nd :
  wf g → nodes g !! n = Some nd →
  ∃ g1 t,
    remove_edges (touching nd) g = (Ok tt, g1, t) ∧
    cascaded (touching nd) g g1 t ∧
    let g2 := match group nd with Some gr => ungroup n gr g1 | None => g1 end in
    remove_node_from_group n g1 = (Ok tt, g2, []) ∧
    remove_node n g = (Ok tt, set_nodes (delete n) g2, t) ∧
    wf (set_nodes (delete n) g2).
Proof.
  intros Hwf Hn.
  destruct (remove_edges_cascade (touching nd) g Hwf) as (g1 & t & Hrun & Hcas).
  { apply NoDup_remove_dups. }
  { intros e. by apply (touching_members g n). }
  exists g1, t. split; [done|]. split; [done|].
  destruct Hcas as [Hwf1 Hout Hin Hedges (Hobs & Hgrp & Hmem & Hgroups) Hnn Hsig Hviews].
  assert (∃ nd1, nodes g1 !! n = Some nd1 ∧ group nd1 = group nd) as (nd1 & Hn1 & Hg1).
  { destruct (Hmem n) as [_ [nd1 Hn1]]; [eauto|]. exists nd1. split; [done|].
    specialize (Hgrp n). unfold group_of in Hgrp. by rewrite Hn1, Hn in Hgrp. }
  assert (Hrg : remove_node_from_group n g1 =
    (Ok tt, match group nd with Some gr => ungroup n gr g1 | None => g1 end, [])).
  { by rewrite remove_node_from_group_eq, Hn1, Hg1. }
  cbn zeta. split; [done|]. split.
  { unfold remove_node, bind at 1, get. rewrite Hn. unfold bind at 1.
    rewrite Hrun. unfold bind, modify. rewrite Hrg. simpl.
    by rewrite !app_nil_r. }
  assert (Hempty_out : out_edges_of g1 n = []).
  { rewrite Hout. apply filter_none, Forall_forall. intros x Hx Hnot.
    apply Hnot. unfold touching. rewrite elem_of_remove_dups, elem_of_app.
    left. unfold out_edges_of in Hx. by rewrite Hn in Hx. }
  assert (Hempty_in : in_edges_of g1 n = []).
  { rewrite Hin. apply filter_none, Forall_forall. intros x Hx Hnot.
    apply Hnot. unfold touching. rewrite elem_of_remove_dups, elem_of_app.
    right. unfold in_edges_of in Hx. by rewrite Hn in Hx. }
  apply wf_delete_node.
  - destruct (group nd); [by apply wf_ungroup|done].
  - destruct (group nd) as [gr|]; [|done].
    destruct (same_adjacency_alter (with_group None) n g1) as (Ho' & _); [done..|].
    unfold ungroup. etrans; [|exact Hempty_out]. apply Ho'.
  - destruct (group nd) as [gr|]; [|done].
    destruct (same_adjacency_alter (with_group None) n g1) as (_ & Hi' & _); [done..|].
    unfold ungroup. etrans; [|exact Hempty_in]. apply Hi'.
Qed.

Lemma remove_node_stranger g n :
  nodes g !! n = None → remove_node n g = (Err NotFoundError, g, []).
Proof. intros Hn. unfold remove_node, bind, get, throw. by rewrite Hn. Qed.

Lemma wf_remove_node n g : wf g → wf (remove_node n g).1.2.
Proof.
  intros Hwf. destruct (nodes g !! n) as [nd|] eqn:Hn.
  - destruct (remove_node_member g n nd Hwf Hn) as (g1 & t & _ & _ & _ & -> & Hwf').
    done.
  - by rewrite remove_node_stranger.
Qed.

Lemma void_graph {A} (m : M A) g : (void m g).1.2 = (m g).1.2.
Proof. unfold void, bind, ret. by destruct (m g) as [[[] ?] ?]. Qed.

Lemma void_calls {A} (m : M A) g : (void m g).2 = (m g).2.
Proof.
  unfold void, bind, ret. destruct (m g) as [[[] ?] ?]; simpl; [|done].
  by rewrite app_nil_r.
Qed.

Lemma wf_perform (o : op) g : wf g → wf (perform o g).1.2.
Proof.
  intros Hwf. destruct o as [m|r]; [|by apply wf_registration].
  destruct m; cbn [perform mutation_sem].
  - rewrite void_graph. by apply wf_insert_node.
  - by apply wf_remove_node.
  - rewrite void_graph. by apply wf_insert_edge.
  - by apply wf_remove_edge.
  - rewrite void_graph. by apply wf_insert_group.
  - by apply wf_insert_node_into_group.
  - by apply wf_remove_node_from_group.
Qed.

Lemma exec_snoc ops (o : op) g :
  exec (ops ++ [o]) g = exec_step (exec ops g) o.
Proof. unfold exec. by rewrite foldl_app. Qed.

Lemma wf_exec ops g : wf g → wf (exec ops g).1.
Proof.
  intros Hwf. induction ops as [|o ops IH] using rev_ind; [done|].
  rewrite exec_snoc. unfold exec_step.
  pose proof (wf_perform o _ IH) as H.
  by destruct (perform o (exec ops g).1) as [[? ?] ?].
Qed.


(** ** Who can be called during a mutation *)

Lemma audible_fan_out g g' v n k c :
  observers_of g' n = observers_of g n →
  c ∈ fan_out (observers_of g' n) k v → audible g c.
Proof.
  intros Ho (o & Hin & Hen & ->)%elem_of_fan_out. exists n, o.
  by rewrite <-Ho.
Qed.

Lemma audible_same_population g g' c :
  same_population g g' → audible g' c → audible g c.
Proof. intros (Ho & _) (n & o & Hin & Hen & Hc). exists n, o. by rewrite <-Ho. Qed.

Lemma audible_removal_calls e ed g :
  Forall (audible g) (removal_calls e ed g).
Proof.
  unfold removal_calls. rewrite !Forall_app. split_and!.
  all: apply Forall_forall; intros c Hc.
  all: eapply audible_fan_out; [|exact Hc]; auto using observers_detach_edge.
Qed.

Lemma audible_insertion_calls e src dst g :
  Forall (audible g) (insertion_calls e src dst g).
Proof.
  unfold insertion_calls. rewrite !Forall_app. split_and!.
  all: apply Forall_forall; intros c Hc.
  all: eapply audible_fan_out; [|exact Hc]; auto using observers_attach_edge.
Qed.

Lemma audible_remove_edge e g :
  same_population g (remove_edge e g).1.2 ∧ Forall (audible g) (remove_edge e g).2.
Proof.
  destruct (edges g !! e) as [ed|] eqn:He.
  - rewrite (remove_edge_member e ed) by done. simpl.
    split; [apply same_population_detach_edge|apply audible_removal_calls].
  - rewrite remove_edge_stale by done. simpl.
    split; [apply same_population_refl|constructor].
Qed.

Lemma audible_remove_edges es : ∀ g,
  same_population g (remove_edges es g).1.2 ∧
  Forall (audible g) (remove_edges es g).2.
Proof.
  induction es as [|e es IH]; intros g.
  { split; [apply same_population_refl|constructor]. }
  cbn [remove_edges]. unfold bind.
  destruct (audible_remove_edge e g) as [Hpop Haud].
  destruct (remove_edge e g) as [[[[]|err] g1] t1]; simpl in *; [|done].
  destruct (IH g1) as [Hpop' Haud'].
  destruct (remove_edges es g1) as [[r g2] t2]; simpl in *. split.
  - by eapply same_population_trans.
  - apply Forall_app. split; [done|].
    eapply Forall_impl; [exact Haud'|]. intros c. by apply audible_same_population.
Qed.

Lemma audible_remove_node n g : Forall (audible g) (remove_node n g).2.
Proof.
  unfold remove_node, bind at 1, get.
  destruct (nodes g !! n) as [nd|]; [|constructor]. unfold bind at 1.
  destruct (audible_remove_edges (touching nd) g) as [_ Haud].
  destruct (remove_edges (touching nd) g) as [[[[]|err] g1] t1]; simpl in *; [|done].
  unfold bind, modify. rewrite remove_node_from_group_eq.
  destruct (nodes g1 !! n); simpl; by rewrite ?app_nil_r.
Qed.

Lemma audible_mutation (m : mutation) g : Forall (audible g) (mutation_sem m g).2.
Proof.
  destruct m; cbn [mutation_sem]; rewrite ?void_calls.
  - constructor.
  - apply audible_remove_node.
  - destruct (nodes g !! src) as [ns|] eqn:Hs;
      [destruct (nodes g !! dst) as [nt|] eqn:Hd|].
    + rewrite insert_edge_members by eauto. apply audible_insertion_calls.
    + rewrite insert_edge_invalid by auto. constructor.
    + rewrite insert_edge_invalid by auto. constructor.
  - apply audible_remove_edge.
  - constructor.
  - unfold insert_node_into_group, bind at 1, get.
    destruct (nodes g !! n) as [nd|] eqn:Hn; [|constructor].
    destruct (groups g !! gr); [|constructor].
    unfold bind, modify. rewrite remove_node_from_group_eq, Hn. constructor.
  - rewrite remove_node_from_group_eq. destruct (nodes g !! n); constructor.
Qed.

Lemma registration_silent (r : registration) g : (registration_sem r g).2 = [].
Proof.
  destruct r as [n o|n h|n h|n h]; simpl;
    unfold attach_observer, detach_observer, enable_observer, disable_observer,
      bind, get, throw, modify;
    by destruct (nodes g !! n).
Qed.


Lemma observers_attach_observer g n nd (o : node_observer) :
  nodes g !! n = Some nd →
  observers_of (attach_observer n o g).1.2 n =
  observers nd ++ [mk_node_observer (handle o) (set_target (Some n) (base o))].
Proof.
  intros Hn. unfold attach_observer, bind, get, modify, observers_of.
  rewrite Hn. simpl. by rewrite lookup_alter_eq, Hn.
Qed.

(** ** The claims on the container *)

(** C1: adjacency symmetry holds after every sequence of operations issued
    on a new container: an edge in a node's out-list has that node as its
    source, an edge in a node's in-list has it as its destination. *)
Theorem adjacency_symmetry_invariant (ops : list op) :
  adjacency_symmetry (exec ops empty_graph).1.
Proof. apply wf_adjacency_symmetry, wf_exec, wf_empty. Qed.

(** C2: between two members, [insert_edge] succeeds, appends the new edge
    to the out-list of [src] and the in-list of [dst], and only then calls
    the enabled observers of [src] with [on_out_node_inserted], followed by
    those of [dst] with [on_in_node_inserted]; with an endpoint that is not
    a member it fails with [InvalidEndpointError] and changes nothing. *)
Theorem insert_edge_source_first g src dst :
  match nodes g !! src, nodes g !! dst with
  | Some _, Some _ =>
      let e := next_edge g in
      let g' := attach_edge e src dst g in
      let t_out := fan_out (observers_of g src) (on_out_node_inserted src dst e) g' in
      let t_in := fan_out (observers_of g dst) (on_in_node_inserted dst src e) g' in
      insert_edge src dst g = (Ok e, g', t_out ++ t_in) ∧
      edges g' !! e = Some (mk_edge src dst) ∧
      out_edges_of g' src = out_edges_of g src ++ [e] ∧
      in_edges_of g' dst = in_edges_of g dst ++ [e] ∧
      (∀ i j ci cj,
         (t_out ++ t_in) !! i = Some ci → (t_out ++ t_in) !! j = Some cj →
         note ci = on_out_node_inserted src dst e →
         note cj = on_in_node_inserted dst src e → i < j)
  | _, _ => insert_edge src dst g = (Err InvalidEndpointError, g, [])
  end.
Proof.
  destruct (nodes g !! src) as [ns|] eqn:Hs; [destruct (nodes g !! dst) as [nt|] eqn:Hd|].
  2,3: by apply insert_edge_invalid; auto.
  cbn zeta. split_and!.
  - rewrite insert_edge_members by eauto. unfold insertion_calls.
    by rewrite !observers_attach_edge.
  - simpl. by rewrite lookup_insert_eq.
  - rewrite out_edges_attach_edge, decide_True; eauto.
  - rewrite in_edges_attach_edge, decide_True; eauto.
  - intros i j ci cj Hi Hj Hci Hcj.
    destruct (decide (i < j)) as [|Hge]; [done|]. exfalso.
    apply lookup_app_Some in Hi as [Hi|[Hlen Hi]];
      apply lookup_app_Some in Hj as [Hj|[Hlen' Hj]].
    + apply list_elem_of_lookup_2, elem_of_fan_out in Hj as (o & _ & _ & ->).
      simpl in Hcj. discriminate.
    + apply lookup_lt_Some in Hi. lia.
    + apply list_elem_of_lookup_2, elem_of_fan_out in Hj as (o & _ & _ & ->).
      simpl in Hcj. discriminate.
    + apply list_elem_of_lookup_2, elem_of_fan_out in Hi as (o & _ & _ & ->).
      simpl in Hci. discriminate.
Qed.

(** C3: on a member edge, [remove_edge] calls the edge-context callbacks
    ([on_out_node_removed] on the source, then [on_in_node_removed] on the
    destination) on the container in which the edge is still in both
    adjacency lists, then detaches the edge, then calls the final callbacks
    on the container in which it is gone; on an edge that is not a member
    it fails with [NotFoundError]. *)
Theorem remove_edge_protocol g e :
  wf g →
  match edges g !! e with
  | Some ed =>
      let s := source ed in
      let d := destination ed in
      let g' := detach_edge e ed g in
      remove_edge e g =
        (Ok tt, g',
         fan_out (observers_of g s) (on_out_node_removed s d e) g ++
         fan_out (observers_of g d) (on_in_node_removed d s e) g ++
         fan_out (observers_of g s) (on_out_node_removed1 s) g' ++
         fan_out (observers_of g d) (on_in_node_removed1 d) g') ∧
      (e ∈ out_edges_of g s ∧ e ∈ in_edges_of g d) ∧
      ((e ∉ out_edges_of g' s) ∧ (e ∉ in_edges_of g' d) ∧ edges g' !! e = None)
  | None => remove_edge e g = (Err NotFoundError, g, [])
  end.
Proof.
  intros Hwf. destruct (edges g !! e) as [ed|] eqn:He; [|by apply remove_edge_stale].
  cbn zeta. split_and!.
  - rewrite (remove_edge_member e ed) by done. unfold removal_calls.
    by rewrite !observers_detach_edge.
  - by apply (wf_source g Hwf).
  - by apply (wf_destination g Hwf).
  - rewrite out_edges_detach_edge, decide_True by done.
    rewrite list_elem_of_filter. by intros [? _].
  - rewrite in_edges_detach_edge, decide_True by done.
    rewrite list_elem_of_filter. by intros [? _].
  - simpl. apply lookup_delete_eq.
Qed.


(** *** Delivery, and what [enable] and [disable] do to it *)

Lemma notify_deliveries n k g :
  notify n k g =
  (Ok tt, g, (λ o, mk_call (handle o) k g) <$> filter enabled (observers_of g n)).
Proof. unfold notify. by rewrite fan_out_filter. Qed.

Lemma signal_insert_edge src dst g :
  is_Some (nodes g !! src) → is_Some (nodes g !! dst) →
  signal <$> (insert_edge src dst g).2 =
  deliveries g src (on_out_node_inserted src dst (next_edge g)) ++
  deliveries g dst (on_in_node_inserted dst src (next_edge g)).
Proof.
  intros Hs Hd. rewrite insert_edge_members by done. cbn [snd].
  unfold insertion_calls. rewrite fmap_app.
  by rewrite !(signal_fan_out g) by apply observers_attach_edge.
Qed.

Lemma signal_remove_edge e g :
  signal <$> (remove_edge e g).2 = removal_protocol g e.
Proof.
  destruct (edges g !! e) as [ed|] eqn:He.
  - rewrite (remove_edge_member e ed) by done. by apply signal_removal_calls.
  - rewrite remove_edge_stale by done. unfold removal_protocol. by rewrite He.
Qed.

Lemma observers_switch (f : observer nat → observer nat) n h g n' :
  is_Some (nodes g !! n) →
  observers_of (set_nodes (alter (with_observers (map (on_handle f h))) n) g) n' =
  if decide (n = n') then map (on_handle f h) (observers_of g n')
  else observers_of g n'.
Proof.
  intros [nd Hn]. unfold observers_of. simpl. rewrite lookup_alter.
  case_decide; [subst n'|done]. by rewrite Hn.
Qed.

Lemma disable_observer_eq n h g :
  is_Some (nodes g !! n) →
  disable_observer n h g =
  (Ok tt, set_nodes (alter (with_observers (map (on_handle disable h))) n) g, []).
Proof.
  intros [nd Hn]. unfold disable_observer, bind, get, modify. by rewrite Hn.
Qed.

Lemma enable_observer_eq n h g :
  is_Some (nodes g !! n) →
  enable_observer n h g =
  (Ok tt, set_nodes (alter (with_observers (map (on_handle enable h))) n) g, []).
Proof.
  intros [nd Hn]. unfold enable_observer, bind, get, modify. by rewrite Hn.
Qed.

Lemma heard_after_disable (obs : list node_observer) (h : nat) k :
  (λ o, (handle o, k)) <$> filter enabled (map (on_handle disable h) obs) =
  filter (λ d, d.1 ≠ h) ((λ o, (handle o, k)) <$> filter enabled obs).
Proof.
  induction obs as [|o obs IH]; [done|]. cbn [map]. unfold on_handle at 1.
  destruct (decide (handle o = h)) as [Hh|Hh].
  - rewrite filter_cons_False by (unfold enabled; simpl; congruence).
    rewrite IH. destruct (decide (enabled o)) as [Ho|Ho].
    + rewrite (filter_cons_True enabled) by done. rewrite fmap_cons.
      rewrite filter_cons_False; [done|]. simpl. by intros [].
    + by rewrite (filter_cons_False enabled) by done.
  - destruct (decide (enabled o)) as [Ho|Ho].
    + rewrite !(filter_cons_True enabled) by done. rewrite !fmap_cons.
      rewrite filter_cons_True by done. by rewrite IH.
    + by rewrite !(filter_cons_False enabled) by done.
Qed.

Lemma heard_after_enable (obs : list node_observer) (h : nat) k :
  (λ o, (handle o, k)) <$> filter enabled (map (on_handle enable h) obs) =
  (λ o, (handle o, k)) <$> filter (λ o, enabled o ∨ handle o = h) obs.
Proof.
  induction obs as [|o obs IH]; [done|]. cbn [map]. unfold on_handle at 1.
  destruct (decide (handle o = h)) as [Hh|Hh].
  - rewrite (filter_cons_True enabled) by done.
    rewrite (filter_cons_True (λ o, enabled o ∨ handle o = h)) by auto.
    rewrite !fmap_cons. simpl. by rewrite IH.
  - destruct (decide (enabled o)) as [Ho|Ho].
    + rewrite (filter_cons_True enabled) by done.
      rewrite (filter_cons_True (λ o, enabled o ∨ handle o = h)) by auto.
      rewrite !fmap_cons. by rewrite IH.
    + rewrite (filter_cons_False enabled) by done.
      rewrite (filter_cons_False (λ o, enabled o ∨ handle o = h)) by tauto.
      done.
Qed.

(** C5: the fan-out of a node calls exactly its attached observers that are
    enabled, in attachment order (an attached observer goes to the end of
    the collection), and this is what an edge insertion and an edge removal
    deliver; an observer that is disabled when a mutation starts gets no
    callback from it; [disable] takes exactly the observer's callbacks out
    of what the node delivers from then on and [enable] puts them back;
    no registration call, [enable] included, delivers anything, so nothing
    missed is replayed. *)
Theorem fan_out_enabled_in_order :
  (∀ (obs : list node_observer) k g,
     fan_out obs k g = (λ o, mk_call (handle o) k g) <$> filter enabled obs) ∧
  (∀ n k g,
     notify n k g =
     (Ok tt, g, (λ o, mk_call (handle o) k g) <$> filter enabled (observers_of g n))) ∧
  (∀ g n nd (o : node_observer), nodes g !! n = Some nd →
     observers_of (attach_observer n o g).1.2 n =
     observers nd ++ [mk_node_observer (handle o) (set_target (Some n) (base o))]) ∧
  (∀ g src dst, is_Some (nodes g !! src) → is_Some (nodes g !! dst) →
     signal <$> (mutation_sem (do_insert_edge src dst) g).2 =
     deliveries g src (on_out_node_inserted src dst (next_edge g)) ++
     deliveries g dst (on_in_node_inserted dst src (next_edge g))) ∧
  (∀ g e, signal <$> (mutation_sem (do_remove_edge e) g).2 = removal_protocol g e) ∧
  (∀ (m : mutation) g (h : nat),
     (∀ n o, o ∈ observers_of g n → handle o = h → isEnabled (base o) = false) →
     ∀ c, c ∈ (mutation_sem m g).2 → callee c ≠ h) ∧
  (∀ (r : registration) g, (registration_sem r g).2 = []) ∧
  (∀ g n (h : nat) k, is_Some (nodes g !! n) →
     let g' := (registration_sem (do_disable n h) g).1.2 in
     deliveries g' n k = filter (λ d, d.1 ≠ h) (deliveries g n k) ∧
     ∀ n', n' ≠ n → deliveries g' n' k = deliveries g n' k) ∧
  (∀ g n (h : nat) k, is_Some (nodes g !! n) →
     let g' := (registration_sem (do_enable n h) g).1.2 in
     deliveries g' n k =
       (λ o, (handle o, k)) <$>
         filter (λ o, enabled o ∨ handle o = h) (observers_of g n) ∧
     ∀ n', n' ≠ n → deliveries g' n' k = deliveries g n' k).
Proof.
  split_and!.
  - apply fan_out_filter.
  - apply notify_deliveries.
  - apply observers_attach_observer.
  - intros g src dst Hs Hd. cbn [mutation_sem]. rewrite void_calls.
    by apply signal_insert_edge.
  - intros g e. apply signal_remove_edge.
  - intros m g h Hoff c Hc.
    pose proof (audible_mutation m g) as Haud.
    rewrite Forall_forall in Haud. destruct (Haud c Hc) as (n & o & Hin & Hen & ->).
    intros Hh. specialize (Hoff n o Hin Hh). unfold enabled in Hen. congruence.
  - apply registration_silent.
  - intros g n h k Hn. cbn [registration_sem]. rewrite disable_observer_eq by done.
    cbn [fst snd]. unfold deliveries. split.
    + rewrite observers_switch, decide_True by done. apply heard_after_disable.
    + intros n' Hne. by rewrite observers_switch, decide_False by done.
  - intros g n h k Hn. cbn [registration_sem]. rewrite enable_observer_eq by done.
    cbn [fst snd]. unfold deliveries. split.
    + rewrite observers_switch, decide_True by done. apply heard_after_enable.
    + intros n' Hne. by rewrite observers_switch, decide_False by done.
Qed.


End graph_facts.

(** ** The claims at work on the scene *)

Section scene_facts.
Import Observer Graph Scene.

Lemma wf_scene : wf scene.
Proof. apply wf_exec, wf_empty. Qed.

Lemma scene_node0 :
  nodes scene !! 0 =
  Some (mk_node [1] [0; 1] (Some 0)
          [mk_node_observer 7 (mk_observer (Some 0) EmptyString true)]).
Proof. vm_compute. reflexivity. Qed.

Lemma scene_node1 :
  nodes scene !! 1 =
  Some (mk_node [0] [] None
          [mk_node_observer 8 (mk_observer (Some 1) EmptyString false);
           mk_node_observer 9 (mk_observer (Some 1) EmptyString true)]).
Proof. vm_compute. reflexivity. Qed.

Lemma scene_edge0 : edges scene !! 0 = Some (mk_edge 0 1).
Proof. vm_compute. reflexivity. Qed.

Lemma scene_strangers n : 2 ≤ n → nodes scene !! n = None.
Proof.
  intros Hn. destruct (nodes scene !! n) eqn:E; [|done].
  assert (n < next_node scene) as Hlt by (apply (wf_next_node scene wf_scene); eauto).
  vm_compute in Hlt. lia.
Qed.

(** Observer 9 is disabled during the first insertion and enabled again
    before the second: it hears the second one only. *)
Example scene_no_replay :
  signal <$> (exec [ register (do_disable 1 9); mutate (do_insert_edge 0 1);
                     register (do_enable 1 9); mutate (do_insert_edge 0 1) ]
                scene).2 =
  [ (7, on_out_node_inserted 0 1 2);
    (7, on_out_node_inserted 0 1 3); (9, on_in_node_inserted 1 0 3) ].
Proof. vm_compute. reflexivity. Qed.

(** The self-loop on node 0 notifies the node on both sides. *)
Example scene_self_loop :
  signal <$> (insert_edge 0 0 scene).2 =
  [ (7, on_out_node_inserted 0 0 2); (7, on_in_node_inserted 0 0 2) ].
Proof. vm_compute. reflexivity. Qed.

(** A stale edge handle and a foreign endpoint are refused. *)
Example scene_failures :
  (remove_edge 5 scene).1.1 = Err NotFoundError ∧
  (insert_edge 0 4 scene).1.1 = Err InvalidEndpointError ∧
  (remove_node 4 scene).1.1 = Err NotFoundError.
Proof. vm_compute. by split_and!. Qed.

End scene_facts.

Lemma insert_edge_source_first_witness :
  let g' := Graph.attach_edge 2 1 0 Scene.scene in
  Graph.insert_edge 1 0 Scene.scene =
    (Graph.Ok 2, g',
     [Graph.mk_call 9 (Graph.on_out_node_inserted 1 0 2) g';
      Graph.mk_call 7 (Graph.on_in_node_inserted 0 1 2) g']) ∧
  Graph.out_edges_of g' 1 = [2] ∧ Graph.in_edges_of g' 0 = [1; 2].
Proof.
  pose proof (insert_edge_source_first Scene.scene 1 0) as H.
  rewrite scene_node0, scene_node1 in H.
  change (Graph.next_edge Scene.scene) with 2 in H. cbn zeta in H.
  destruct H as (Hrun & _ & Hout & Hin & _).
  cbn zeta. rewrite Hrun, Hout, Hin. unfold Graph.observers_of, Graph.out_edges_of,
    Graph.in_edges_of. rewrite scene_node0, scene_node1. done.
Defined.

Lemma remove_edge_protocol_witness :
  Graph.wf Scene.scene ∧
  Graph.signal <$> (Graph.remove_edge 0 Scene.scene).2 =
    [(7, Graph.on_out_node_removed 0 1 0); (9, Graph.on_in_node_removed 1 0 0);
     (7, Graph.on_out_node_removed1 0); (9, Graph.on_in_node_removed1 1)] ∧
  0 ∈ Graph.out_edges_of Scene.scene 0 ∧ 0 ∈ Graph.in_edges_of Scene.scene 1 ∧
  (0 ∉ Graph.out_edges_of (Graph.remove_edge 0 Scene.scene).1.2 0) ∧
  (0 ∉ Graph.in_edges_of (Graph.remove_edge 0 Scene.scene).1.2 1).
Proof.
  split; [exact wf_scene|].
  pose proof (remove_edge_protocol Scene.scene 0 wf_scene) as H.
  rewrite scene_edge0 in H. cbn zeta in H. simpl Graph.source in H.
  simpl Graph.destination in H.
  destruct H as (Hrun & (Hout & Hin) & (Hout' & Hin' & _)).
  rewrite Hrun. by split_and!.
Defined.


Lemma fan_out_enabled_in_order_witness :
  Graph.signal <$> (Graph.mutation_sem (Graph.do_insert_edge 0 1) Scene.scene).2 =
    [(7, Graph.on_out_node_inserted 0 1 2); (9, Graph.on_in_node_inserted 1 0 2)] ∧
  Forall (λ c, Graph.callee c ≠ 8)
    (Graph.mutation_sem (Graph.do_insert_edge 0 1) Scene.scene).2 ∧
  Graph.deliveries
    (Graph.registration_sem (Graph.do_disable 1 9) Scene.scene).1.2 1
    (Graph.on_in_node_removed1 1) = [] ∧
  Graph.deliveries
    (Graph.registration_sem (Graph.do_enable 1 8) Scene.scene).1.2 1
    (Graph.on_in_node_removed1 1) =
    [(8, Graph.on_in_node_removed1 1); (9, Graph.on_in_node_removed1 1)].
Proof.
  destruct fan_out_enabled_in_order
    as (_ & _ & _ & Hins & _ & Hoff & _ & Hdis & Hen).
  assert (Hm0 : is_Some (Graph.nodes Scene.scene !! 0))
    by (rewrite scene_node0; eauto).
  assert (Hm1 : is_Some (Graph.nodes Scene.scene !! 1))
    by (rewrite scene_node1; eauto).
  split_and!.
  - rewrite (Hins Scene.scene 0 1 Hm0 Hm1).
    unfold Graph.deliveries, Graph.observers_of.
    by rewrite scene_node0, scene_node1.
  - apply Forall_forall. apply (Hoff _ Scene.scene 8).
    intros n o Hin Hh. unfold Graph.observers_of in Hin.
    destruct n as [|[|n]].
    + rewrite scene_node0 in Hin. cbn in Hin.
      apply list_elem_of_singleton in Hin. subst o. discriminate Hh.
    + rewrite scene_node1 in Hin. cbn in Hin.
      apply elem_of_cons in Hin as [->|Hin]; [done|].
      apply list_elem_of_singleton in Hin. subst o. discriminate Hh.
    + rewrite scene_strangers in Hin by lia. by apply elem_of_nil in Hin.
  - destruct (Hdis Scene.scene 1 9 (Graph.on_in_node_removed1 1) Hm1) as [-> _].
    unfold Graph.deliveries, Graph.observers_of. by rewrite scene_node1.
  - destruct (Hen Scene.scene 1 8 (Graph.on_in_node_removed1 1) Hm1) as [-> _].
    unfold Graph.observers_of. by rewrite scene_node1.
Defined.



(** * Call sequences on [gtpo::observer] *)

Section observer_call_facts.
Import Observer ObserverCalls.
Context {target_t : Type}.
Implicit Types (o : observer target_t) (m : method target_t).
Implicit Types (ms : list (method target_t)).

Lemma invoke_all_snoc o ms m :
  invoke_all o (ms ++ [m]) = invoke (invoke_all o ms) m.
Proof. unfold invoke_all. by rewrite foldl_app. Qed.

Lemma last_omap_snoc {A B} (f : A → option B) (l : list A) (x : A) :
  last (omap f (l ++ [x])) =
  match f x with Some y => Some y | None => last (omap f l) end.
Proof.
  rewrite omap_app. cbn [omap list_omap]. destruct (f x) as [y|].
  - apply last_snoc.
  - by rewrite app_nil_r.
Qed.

(** X1: after any sequence of calls, [get_target()] returns the argument of
    the last [set_target], [getName()] that of the last [setName], and
    [isEnabled()] tells whether the last of the [enable()] / [disable()]
    calls was [enable()]; a member no call assigned keeps its value. *)
Theorem observer_last_call_wins o ms :
  get_target (invoke_all o ms) = default (get_target o) (last (omap target_arg ms)) ∧
  getName (invoke_all o ms) = default (getName o) (last (omap name_arg ms)) ∧
  isEnabled (invoke_all o ms) = default (isEnabled o) (last (omap enabled_arg ms)).
Proof.
  induction ms as [|m ms (IHt & IHn & IHe)] using rev_ind; [done|].
  rewrite invoke_all_snoc, !last_omap_snoc.
  destruct m; simpl; by rewrite ?IHt, ?IHn, ?IHe.
Qed.

(** X2: two calls that assign different members commute; of two calls that
    assign the same member only the second one counts. *)
Theorem observer_calls_commute o m1 m2 :
  (assigns m1 ≠ assigns m2 →
   invoke (invoke o m1) m2 = invoke (invoke o m2) m1) ∧
  (assigns m1 = assigns m2 → invoke (invoke o m1) m2 = invoke o m2).
Proof. split; intros H; by destruct m1, m2. Qed.
End observer_call_facts.

Lemma observer_calls_commute_witness :
  Observer.invoke (Observer.invoke (Observer.observer_new (target_t := nat))
                     Observer.call_disable) (Observer.call_set_target (Some 4)) =
  Observer.invoke (Observer.invoke Observer.observer_new
                     (Observer.call_set_target (Some 4))) Observer.call_disable ∧
  Observer.invoke (Observer.invoke (Observer.observer_new (target_t := nat))
                     Observer.call_disable) Observer.call_enable =
  Observer.invoke Observer.observer_new Observer.call_enable.
Proof.
  split.
  - apply (proj1 (observer_calls_commute (target_t := nat) _ _ _)). discriminate.
  - apply (proj2 (observer_calls_commute (target_t := nat) _ _ _)). reflexivity.
Defined.

(** * Properties of [qan::Group] *)

Section group_facts.
Import QanGroup.
Context {Flag : Type} `{!EqDecision Flag, !Countable Flag}.
Context {QQuickItem Node : Type}.
Variable ItemAcceptsDrops : Flag.
Implicit Types (g : Group Flag QQuickItem Node) (c : call QQuickItem).
Implicit Types (cs : list (call QQuickItem)).

Lemma write_all_snoc g cs c :
  write_all ItemAcceptsDrops g (cs ++ [c]) =
  write ItemAcceptsDrops (write_all ItemAcceptsDrops g cs) c.
Proof. unfold write_all. by rewrite foldl_app. Qed.

Lemma emitted_write g c :
  emitted (write ItemAcceptsDrops g c) = emitted g ++ [notifies c].
Proof. by destruct c. Qed.

(** X3: every property write emits the change signal of its property, once,
    whether or not the value differs from the current one: after a sequence
    of writes the signals emitted are those of the writes, in call order. *)
Theorem group_writes_always_notify g cs :
  emitted (write_all ItemAcceptsDrops g cs) = emitted g ++ (notifies <$> cs).
Proof.
  induction cs as [|c cs IH] using rev_ind; [by rewrite app_nil_r|].
  by rewrite write_all_snoc, emitted_write, IH, fmap_app, app_assoc.
Qed.

Lemma flags_write g c (f : Flag) :
  f ≠ ItemAcceptsDrops → f ∈ flags (write ItemAcceptsDrops g c) ↔ f ∈ flags g.
Proof.
  intros Hf. destruct c as [b|b|l|b|q]; try done.
  destruct b; simpl.
  - rewrite elem_of_union, elem_of_singleton. split; [by intros [?|?]|by right].
  - rewrite elem_of_difference, elem_of_singleton. split; [by intros [? _]|by split].
Qed.

Lemma drops_in_sync_write g c :
  drops_in_sync ItemAcceptsDrops g ∨ is_Some (acceptDrops_arg c) →
  drops_in_sync ItemAcceptsDrops (write ItemAcceptsDrops g c).
Proof.
  unfold drops_in_sync, getAcceptDrops.
  destruct c as [b|b|l|b|q]; simpl; intros [H|[? H]]; try done.
  all: destruct b; split; try done.
  all: try (intros _; apply elem_of_union; left; by apply elem_of_singleton).
  all: intros [_ Hn]%elem_of_difference; exfalso; apply Hn; by apply elem_of_singleton.
Qed.

(** X4: once [setAcceptDrops] has been called, or when the two agreed to
    begin with, the [ItemAcceptsDrops] flag of the item agrees with the
    [acceptDrops] property after any sequence of property writes; no write
    changes any other flag of the item. *)
Theorem group_drops_flag_in_sync g cs :
  drops_in_sync ItemAcceptsDrops g ∨ Exists (λ c, is_Some (acceptDrops_arg c)) cs →
  drops_in_sync ItemAcceptsDrops (write_all ItemAcceptsDrops g cs) ∧
  ∀ f, f ≠ ItemAcceptsDrops →
       (f ∈ flags (write_all ItemAcceptsDrops g cs) ↔ f ∈ flags g).
Proof.
  intros H. split.
  - induction cs as [|c cs IH] using rev_ind.
    + destruct H as [H|H]; [done|inversion H].
    + rewrite write_all_snoc. apply drops_in_sync_write.
      rewrite Exists_app, Exists_cons, Exists_nil in H.
      destruct H as [H|[H|[H|[]]]]; auto.
  - intros f Hf. clear H. induction cs as [|c cs IH] using rev_ind; [done|].
    by rewrite write_all_snoc, flags_write.
Qed.

(** X5: after any sequence of property writes, each getter returns the
    argument of the last write of its property, or the value it had when
    no write touched it; the shadow drop node is never written. *)
Theorem group_last_write_wins g cs :
  let g' := write_all ItemAcceptsDrops g cs in
  getDraggable g' = default (getDraggable g) (last (omap draggable_arg cs)) ∧
  getAcceptDrops g' = default (getAcceptDrops g) (last (omap acceptDrops_arg cs)) ∧
  getLabel g' = default (getLabel g) (last (omap label_arg cs)) ∧
  getHilightDrag g' = default (getHilightDrag g) (last (omap hilightDrag_arg cs)) ∧
  getContainer g' = default (getContainer g) (last (omap container_arg cs)) ∧
  _shadowDropNode g' = _shadowDropNode g.
Proof.
  cbn zeta.
  induction cs as [|c cs (IH1 & IH2 & IH3 & IH4 & IH5 & IH6)] using rev_ind; [done|].
  rewrite write_all_snoc, !last_omap_snoc.
  destruct c; simpl; by rewrite ?IH1, ?IH2, ?IH3, ?IH4, ?IH5, ?IH6.
Qed.
End group_facts.

Lemma group_drops_flag_in_sync_witness :
  let g := QanGroup.mk_Group (Flag := bool) (QQuickItem := nat) (Node := nat)
             ∅ [] true true EmptyString true None None in
  QanGroup.drops_in_sync true
    (QanGroup.write_all true g
       [QanGroup.call_setLabel "pool"; QanGroup.call_setAcceptDrops false;
        QanGroup.call_setDraggable false]) ∧
  (false ∈ QanGroup.flags
     (QanGroup.write_all true g
        [QanGroup.call_setLabel "pool"; QanGroup.call_setAcceptDrops false;
         QanGroup.call_setDraggable false]) ↔ false ∈ QanGroup.flags g).
Proof.
  intros g.
  destruct (group_drops_flag_in_sync true g
              [QanGroup.call_setLabel "pool"; QanGroup.call_setAcceptDrops false;
               QanGroup.call_setDraggable false]) as [Hsync Hother].
  - right. apply Exists_cons_tl, Exists_cons_hd. by eexists.
  - split; [exact Hsync|]. by apply Hother.
Defined.
